(** * StyleTTSEngine: the orchestration logic of
      [RealtimeTTS/engines/style_engine.py]

    The neural sub-models (text encoder, BERT, diffusion sampler, prosody
    predictor, decoder) and the text front end are external; they appear
    here as the fields of a record of oracles.  What is modelled in full is
    the arithmetic and control flow written in the engine itself: the style
    blend, the duration rounding, the alignment loop, the one-frame shift,
    the tail trim, the PCM conversion, the queue and the checkpoint-key
    fallback.

    Conventions.
    - The leading batch axis (always of size 1) is dropped: a [1 x n] tensor
      is a [list Q], a [1 x r x c] tensor is a list of rows.
    - Tensor entries are exact rationals [Q]; floating-point rounding,
      infinities and NaN are outside the model.  Equality of computed
      entries is [Qeq] ([==]).
    - Python exceptions are the [Raise] outcomes of the [result] monad. *)

From Stdlib Require Import ZArith Zquot QArith Qround Qabs Lia Lqa.
From stdpp Require Import base list strings.

Local Open Scope Z_scope.

(** ** Outcomes of Python code *)

Inductive exn : Set :=
| IndexError
| RuntimeError
| ExternalError (code : Z).

Inductive result (A : Type) : Type :=
| Return (a : A)
| Raise (e : exn).
Arguments Return {A} a.
Arguments Raise {A} e.

#[global] Instance result_ret : MRet result := λ A a, Return a.
#[global] Instance result_bind : MBind result := λ A B k m,
  match m with
  | Return a => k a
  | Raise e => Raise e
  end.

(** Monadic left fold: the body of a [for] loop run over [xs], the loop
    carried state being [s]. *)
Fixpoint for_each {S X : Type} (body : S → X → result S) (s : S) (xs : list X)
  : result S :=
  match xs with
  | [] => Return s
  | x :: xs => s' ← body s x; for_each body s' xs
  end.

(** ** Tensors *)

Abbreviation vec := (list Q).
Abbreviation mat := (list (list Q)).

(** A tensor after [squeeze()]: every axis of size 1 is removed, so a
    vector with a single element becomes a 0-dimensional tensor. *)
Inductive tensor : Type :=
| T0 (x : Q)
| T1 (v : vec).

Definition squeeze (v : vec) : tensor :=
  match v with
  | [x] => T0 x
  | _ => T1 v
  end.

Definition tensor_elems (t : tensor) : list Q :=
  match t with
  | T0 x => [x]
  | T1 v => v
  end.

Definition tensor_map (f : Q → Q) (t : tensor) : tensor :=
  match t with
  | T0 x => T0 (f x)
  | T1 v => T1 (map f v)
  end.

Definition Qsum (v : list Q) : Q := foldr Qplus 0%Q v.

(** [t.sum()] *)
Definition tensor_sum (t : tensor) : Q := Qsum (tensor_elems t).

(** [t[i]]: indexing a 0-dimensional tensor is an [IndexError], and so is
    an index past the end. *)
Definition tensor_index (t : tensor) (i : nat) : result Q :=
  match t with
  | T0 _ => Raise IndexError
  | T1 v => match v !! i with
            | Some x => Return x
            | None => Raise IndexError
            end
  end.

(** Elementwise binary operation on two vectors of the same shape; a size
    mismatch that broadcasting cannot repair is a [RuntimeError]. *)
Definition ew2 (f : Q → Q → Q) (a b : vec) : result vec :=
  if decide (length a = length b) then Return (zip_with f a b)
  else match a, b with
       | [x], _ => Return (map (f x) b)
       | _, [y] => Return (map (λ x, f x y) a)
       | _, _ => Raise RuntimeError
       end.

(** [c * v] for a Python scalar [c]. *)
Definition scale (c : Q) (v : vec) : vec := map (Qmult c) v.

(** ** Style blending ([inference], lines 283-288) *)

Record styles : Type := mk_styles {
  st_ref : vec;   (* [ref]: the alpha blend, handed to the decoder *)
  st_s : vec      (* [s]: the beta blend, handed to the predictor *)
}.

Definition blend_styles (alpha beta : Q) (s_pred ref_s : vec) : result styles :=
  let s := drop 128 s_pred in
  let ref := take 128 s_pred in
  ref ← ew2 Qplus (scale alpha ref) (scale (1 - alpha) (take 128 ref_s));
  s ← ew2 Qplus (scale beta s) (scale (1 - beta) (drop 128 ref_s));
  Return (mk_styles ref s).

(** [compute_reference_style], line 230: the reference style is the
    style-encoder embedding followed by the predictor-encoder embedding. *)
Definition cat_reference_style (ref_s ref_p : vec) : vec := ref_s ++ ref_p.

(** ** Durations ([inference], lines 293-294) *)

(** [int(x)]: truncation toward zero. *)
Definition py_int (x : Q) : Z := Z.quot (Qnum x) (Z.pos (Qden x)).

(** Nearest integer, ties to the even one. *)
Definition round_half_even (x : Q) : Z :=
  let f := Qfloor x in
  match (x - inject_Z f ?= 1 # 2)%Q with
  | Lt => f
  | Gt => f + 1
  | Eq => if Z.even f then f else f + 1
  end.

(** [torch.round] *)
Definition torch_round (x : Q) : Q := inject_Z (round_half_even x).

(** [x.clamp(min=m)] *)
Definition clamp_min (m x : Q) : Q := if Qle_bool m x then x else m.

Definition predict_durations (sigmoid : Q → Q) (duration : mat) : tensor :=
  let duration := map (λ row, Qsum (map sigmoid row)) duration in
  tensor_map (clamp_min 1) (tensor_map torch_round (squeeze duration)).

(** ** Alignment matrix ([inference], lines 296-300) *)

(** A slice bound as Python normalises it against an axis of size [len]. *)
Definition norm_index (len i : Z) : Z :=
  if i <? 0 then Z.max 0 (i + len) else Z.min i len.

(** [row[lo:hi] = v] *)
Definition slice_fill (row : vec) (lo hi : Z) (v : Q) : vec :=
  let len := Z.of_nat (length row) in
  imap (λ j x, if bool_decide (norm_index len lo ≤ Z.of_nat j < norm_index len hi)
               then v else x) row.

Definition zeros (r c : nat) : mat := replicate r (replicate c 0%Q).

Definition align_step (pred_dur : tensor) (st : mat * Z) (i : nat)
  : result (mat * Z) :=
  let '(pred_aln_trg, c_frame) := st in
  d ← tensor_index pred_dur i;
  let pred_aln_trg :=
    alter (λ row, slice_fill row c_frame (c_frame + py_int d) 1%Q) i pred_aln_trg in
  Return (pred_aln_trg, c_frame + py_int d).

Definition build_alignment (input_lengths : nat) (pred_dur : tensor) : result mat :=
  let frames := py_int (tensor_sum pred_dur) in
  if frames <? 0 then Raise RuntimeError
  else
    let pred_aln_trg := zeros input_lengths (Z.to_nat frames) in
    '(pred_aln_trg, _) ← for_each (align_step pred_dur) (pred_aln_trg, 0)
                                   (seq 0 (length pred_aln_trg));
    Return pred_aln_trg.

(** ** Matrix products ([inference], lines 302 and 311) *)

Definition width (m : mat) : nat := from_option length 0%nat (head m).

Definition transpose (m : mat) : mat :=
  map (λ j, map (λ row, default 0%Q (row !! j)) m) (seq 0 (width m)).

(** [sum_t coeffs[t] * rows[t]] *)
Definition lincomb (n : nat) (coeffs : vec) (rows : mat) : vec :=
  foldr (λ cr acc, zip_with Qplus (scale cr.1 cr.2) acc)
        (replicate n 0%Q) (zip coeffs rows).

Definition matmul (a b : mat) : result mat :=
  if forallb (λ row, bool_decide (length row = length b)) a
  then Return (map (λ row, lincomb (width b) row b) a)
  else Raise RuntimeError.

(** ** One-frame shift for the hifigan decoder (lines 303-307, 312-316) *)

Definition shift_row (row : vec) : result vec :=
  let asr_new := replicate (length row) 0%Q in
  x0 ← from_option Return (Raise IndexError) (row !! 0%nat);
  let asr_new := <[0%nat := x0]> asr_new in
  let asr_new := take 1 asr_new ++ take (length row - 1) row in
  Return asr_new.

Definition hifigan_shift (decoder_type : string) (en : mat) : result mat :=
  if decide (decoder_type = "hifigan") then mapM shift_row en else Return en.

(** ** Tail trim ([inference], lines 321-323) *)

(** A 0-dimensional array has the empty shape, so [shape[-1]] is an
    [IndexError]. *)
Definition trim_tail (waveform : tensor) : result tensor :=
  match waveform with
  | T0 _ => Raise IndexError
  | T1 v =>
      if 50 <? Z.of_nat (length v)
      then Return (T1 (take (length v - 50) v))
      else Return waveform
  end.

(** ** PCM conversion ([synthesize], line 116) *)

(** [astype(np.int16)]: truncate, then keep the low 16 bits as a signed
    value. *)
Definition to_int16 (x : Q) : Z := (py_int x + 32768) mod 65536 - 32768.

(** The two bytes of a 16-bit value, low byte first. *)
Definition int16_bytes (z : Z) : list Z := [z mod 256; (z / 256) mod 256].

Definition pcm_bytes (audio_waveform : tensor) : list Z :=
  flat_map (λ x, int16_bytes (to_int16 (x * 32767)))
           (tensor_elems audio_waveform).


(** ** The engine *)

Inductive pyval : Type :=
| PyNone
| PyArray (a : tensor).

(** The instance attributes that [synthesize] and [inference] read or
    write. *)
Record engine : Type := mk_engine {
  alpha : Q;
  beta : Q;
  diffusion_steps : Z;
  embedding_scale : Q;
  ref_s : vec;
  queue : list (list Z)
}.

(** [self.queue.put(audio_data)] *)
Definition queue_put (self : engine) (audio_data : list Z) : engine :=
  mk_engine (alpha self) (beta self) (diffusion_steps self)
            (embedding_scale self) (ref_s self) (queue self ++ [audio_data]).

(** External collaborators.  [frontend] stands for lines 258-262 (strip,
    phonemize, word-tokenize, join, text cleaner). *)
Record model : Type := mk_model {
  decoder_type : string;
  frontend : string → result (list Z);
  text_encoder : list Z → nat → list bool → result mat;
  bert : list Z → list Z → result mat;
  bert_encoder : mat → result mat;
  sampler : vec → mat → Q → vec → Z → result vec;
  predictor_text_encoder : mat → vec → nat → list bool → result mat;
  predictor_lstm : mat → result mat;
  duration_proj : mat → result mat;
  sigmoid : Q → Q;
  F0Ntrain : mat → vec → result (mat * mat);
  decoder : mat → mat → mat → vec → result vec
}.

(** [length_to_mask] for the single length [n]: entry [j] is [j + 1 > n]. *)
Definition length_to_mask (n : nat) : list bool :=
  map (λ j, bool_decide (n < j + 1)%nat) (seq 0 n).

(** Lines 302-319: from the alignment to the decoder output. *)
Definition decode_aligned (M : model) (d t_en pred_aln_trg : mat) (s ref : vec)
  : result tensor :=
  en ← matmul (transpose d) pred_aln_trg;
  en ← hifigan_shift (decoder_type M) en;
  '(F0_pred, N_pred) ← F0Ntrain M en s;
  asr ← matmul t_en pred_aln_trg;
  asr ← hifigan_shift (decoder_type M) asr;
  out ← decoder M asr F0_pred N_pred ref;
  Return (squeeze out).

(** Lines 258-319 of [inference]: everything up to the end of the
    [torch.no_grad()] block.  [noise] is the draw of [torch.randn(1, 256)]. *)
Definition inference_waveform (M : model) (noise : vec) (self : engine)
    (text : string) (alpha beta : Q) (diffusion_steps : Z) (embedding_scale : Q)
  : result tensor :=
  tokens ← frontend M text;
  let tokens := 0 :: tokens in
  let input_lengths := length tokens in
  let text_mask := length_to_mask input_lengths in
  t_en ← text_encoder M tokens input_lengths text_mask;
  bert_dur ← bert M tokens (map (λ b : bool, if b then 0 else 1) text_mask);
  d_en ← bert_encoder M bert_dur;
  let d_en := transpose d_en in
  s_pred ← sampler M noise bert_dur embedding_scale (ref_s self) diffusion_steps;
  st ← blend_styles alpha beta s_pred (ref_s self);
  let ref := st_ref st in
  let s := st_s st in
  d ← predictor_text_encoder M d_en s input_lengths text_mask;
  x ← predictor_lstm M d;
  duration ← duration_proj M x;
  let pred_dur := predict_durations (sigmoid M) duration in
  pred_aln_trg ← build_alignment input_lengths pred_dur;
  decode_aligned M d t_en pred_aln_trg s ref.

(** [inference]: lines 258-324. *)
Definition inference (M : model) (noise : vec) (self : engine) (text : string)
    (alpha beta : Q) (diffusion_steps : Z) (embedding_scale : Q) : result pyval :=
  waveform ← inference_waveform M noise self text alpha beta diffusion_steps
                                embedding_scale;
  waveform ← trim_tail waveform;
  Return (PyArray waveform).

(** [synthesize], with the [inference] method it dispatches to as a
    parameter. *)
Definition synthesize_with
    (inference : engine → string → Q → Q → Z → Q → result pyval)
    (self : engine) (text : string) : result (bool * engine) :=
  audio_waveform ← inference self text (alpha self) (beta self)
                     (diffusion_steps self) (embedding_scale self);
  match audio_waveform with
  | PyArray w =>
      let audio_data := pcm_bytes w in
      Return (true, queue_put self audio_data)
  | PyNone => Return (false, self)
  end.

Definition synthesize (M : model) (noise : vec) : engine → string → result (bool * engine) :=
  synthesize_with (inference M noise).

(** ** Checkpoint loading ([load_model], lines 179-191) *)

(** [k[n:]] on a string *)
Fixpoint str_drop (n : nat) (k : string) : string :=
  match n, k with
  | O, _ => k
  | S n, String _ k => str_drop n k
  | S _, EmptyString => EmptyString
  end.

(** A dictionary in insertion order. *)
Abbreviation dict V := (list (string * V)).

Section Dict.
Context {V : Type}.

Definition dict_keys (d : dict V) : list string := d.*1.

Fixpoint dict_get (d : dict V) (k : string) : option V :=
  match d with
  | [] => None
  | (k', v) :: d => if decide (k' = k) then Some v else dict_get d k
  end.

(** [d[k] = v]: overwrite in place, or append a new key. *)
Fixpoint dict_set (d : dict V) (k : string) (v : V) : dict V :=
  match d with
  | [] => [(k, v)]
  | (k', v') :: d => if decide (k' = k) then (k, v) :: d
                     else (k', v') :: dict_set d k v
  end.

(** Lines 186-190. *)
Definition strip_module_prefix (state_dict : dict V) : dict V :=
  foldl (λ new_state_dict kv,
           let name := str_drop 7 kv.1 in
           dict_set new_state_dict name kv.2)
        [] state_dict.
End Dict.

Section Checkpoint.
Context {W Module : Type}.

(** [load_state_dict] belongs to the tensor library: it updates the
    module in place and may raise after doing so. *)
Variable load_state_dict : Module → dict W → bool → Module * option exn.

(** Lines 182-191 for one sub-model. *)
Definition load_submodel (m : Module) (params_key : dict W) : Module * option exn :=
  let '(m1, r) := load_state_dict m params_key true in
  match r with
  | None => (m1, None)
  | Some _ => load_state_dict m1 (strip_module_prefix params_key) false
  end.

(** Lines 179-191: the loop over the sub-models. *)
Fixpoint load_checkpoint (net : dict Module) (params : dict (dict W))
  : result (dict Module) :=
  match net with
  | [] => Return []
  | (key, m) :: net =>
      match dict_get params key with
      | Some params_key =>
          let '(m', r) := load_submodel m params_key in
          match r with
          | None => rest ← load_checkpoint net params; Return ((key, m') :: rest)
          | Some e => Raise e
          end
      | None => rest ← load_checkpoint net params; Return ((key, m) :: rest)
      end
  end.
End Checkpoint.

(** ** The split as the specification words it

    The specification calls the first 128 entries of the sample the
    predicted prosody (beta blend, against the reference prosody half) and
    the last 128 the predicted timbre (alpha blend, against the reference
    timbre half).  This definition follows those words, to be compared with
    [blend_styles]. *)
Definition blend_styles_as_specified (alpha beta : Q) (s_pred ref_s : vec)
  : result styles :=
  let sampled_prosody := take 128 s_pred in
  let sampled_timbre := drop 128 s_pred in
  let reference_timbre := take 128 ref_s in
  let reference_prosody := drop 128 ref_s in
  timbre ← ew2 Qplus (scale alpha sampled_timbre)
                      (scale (1 - alpha) reference_timbre);
  prosody ← ew2 Qplus (scale beta sampled_prosody)
                       (scale (1 - beta) reference_prosody);
  Return (mk_styles timbre prosody).

(** ** Concrete instances used to exercise the definitions *)

Module Sample.

Definition sample : vec := replicate 128 1%Q ++ replicate 128 2%Q.
Definition reference : vec :=
  cat_reference_style (replicate 128 3%Q) (replicate 128 4%Q).

(** A rational stand-in for the logistic function, with values in (0,1). *)
Definition soft (x : Q) : Q := ((1 + x / (1 + Qabs x)) / 2)%Q.

Definition toy (ty : string) (n_samples : nat) : model := {|
  decoder_type := ty;
  frontend := λ _, Return [5; 7];
  text_encoder := λ tokens _ _,
    Return [map inject_Z tokens; map (λ _, 1%Q) tokens];
  bert := λ tokens _, Return (map (λ t, [inject_Z t]) tokens);
  bert_encoder := λ m, Return m;
  sampler := λ noise _ _ _ _, Return noise;
  predictor_text_encoder := λ d_en _ _ _,
    Return (map (λ x, [x; (x + 1)%Q]) (default [] (head d_en)));
  predictor_lstm := λ d, Return d;
  duration_proj := λ x, Return (map (λ row, row ++ [0%Q; 0%Q]) x);
  sigmoid := soft;
  F0Ntrain := λ en _, Return (en, en);
  decoder := λ asr _ _ _, Return (concat asr ++ replicate n_samples (1 # 4)%Q)
|}.

(** A stand-in for the tensor library's [load_state_dict], for a module
    given by its parameter dictionary: every parameter whose key the
    state dictionary has is overwritten; in strict mode a missing or an
    unexpected key is then an error. *)
Definition load_by_key (m sd : dict Z) (strict : bool) : dict Z * option exn :=
  let m' := (λ kv, (kv.1, default kv.2 (dict_get sd kv.1))) <$> m in
  let missing := filter (λ k, dict_get sd k = None) (dict_keys m) in
  let unexpected := filter (λ k, dict_get m k = None) (dict_keys sd) in
  (m', if strict && negb (bool_decide (missing = [] ∧ unexpected = []))
       then Some RuntimeError else None).

Definition self : engine := {|
  alpha := 3 # 10; beta := 7 # 10; diffusion_steps := 5;
  embedding_scale := 1; ref_s := reference; queue := []
|}.

End Sample.

(** ** Statement vocabulary *)

(** [blended] is entry by entry [c * sampled + (1 - c) * reference]; for
    [c] in [0,1] each entry lies between the two it interpolates, and at
    the ends of the range it is one of them. *)
Definition affine_blend (c : Q) (sampled reference blended : vec) : Prop :=
  length blended = length sampled ∧
  (∀ i a b, sampled !! i = Some a → reference !! i = Some b →
     blended !! i = Some (c * a + (1 - c) * b)%Q) ∧
  (∀ i a b x, sampled !! i = Some a → reference !! i = Some b →
     blended !! i = Some x →
     ((a <= b → a <= x <= b) ∧ (b <= a → b <= x <= a))%Q) ∧
  ((c == 0)%Q → Forall2 Qeq blended reference) ∧
  ((c == 1)%Q → Forall2 Qeq blended sampled).

Definition Zsum (l : list Z) : Z := foldr Z.add 0 l.

(** The frame at which token [i] starts: the durations before it, summed. *)
Definition cursor (durs : list Z) (i : nat) : Z := Zsum (take i durs).

(** [m[i, j]] *)
Definition entry (m : mat) (i j : nat) : option Q := m !! i ≫= (.!! j).

(** [y] is [x] with every row moved one frame to the right: frame 0 is
    kept and frame [i >= 1] holds what frame [i - 1] held. *)
Definition shifted_by_one (x y : mat) : Prop :=
  length y = length x ∧
  ∀ c row, x !! c = Some row →
    ∃ row', y !! c = Some row' ∧
            length row' = length row ∧
            row' !! 0%nat = row !! 0%nat ∧
            ∀ i, (1 ≤ i < length row)%nat → row' !! i = row !! (i - 1)%nat.

(** [sum_t cs[t] * es[t]] *)
Definition dot (cs es : vec) : Q :=
  foldr (λ ce acc, (ce.1 * ce.2 + acc)%Q) 0%Q (zip cs es).

(** Column [j] of a matrix, absent entries read as 0. *)
Definition column (j : nat) (m : mat) : vec := (λ row, default 0%Q (row !! j)) <$> m.

(** ** [length_to_mask] for a batch of lengths (lines 232-235)

    [lengths.max()] of an empty tensor and [torch.arange] of a negative
    bound are errors; entry [(i, j)] of the mask is [j + 1 > lengths[i]]. *)
Definition length_to_mask_batch (lengths : list Z) : result (list (list bool)) :=
  match lengths with
  | [] => Raise RuntimeError
  | l0 :: ls =>
      let bound := foldr Z.max l0 ls in
      if bound <? 0 then Raise RuntimeError
      else
        let mask := seqZ 0 bound in
        Return (map (λ len, map (λ j, bool_decide (len < j + 1)) mask) lengths)
  end.

(** ** Constructor attributes ([__init__], lines 70-74) *)






(** ** A model that differs in its front end only *)
Definition with_frontend (M : model) (f : string → result (list Z)) : model :=
  mk_model (decoder_type M) f (text_encoder M) (bert M) (bert_encoder M)
           (sampler M) (predictor_text_encoder M) (predictor_lstm M)
           (duration_proj M) (sigmoid M) (F0Ntrain M) (decoder M).


(** * Properties *)

(** ** The [result] monad *)

Lemma bind_Return_l {A B : Type} (a : A) (k : A → result B) :
  Return a ≫= k = k a.
Proof. done. Qed.

(** ** Style blending *)

Lemma ew2_same_length (f : Q → Q → Q) (a b : vec) :
  length a = length b → ew2 f a b = Return (zip_with f a b).
Proof. intros Hlen. unfold ew2. by rewrite decide_True. Qed.

Lemma length_scale (c : Q) (v : vec) : length (scale c v) = length v.
Proof. apply length_map. Qed.

(** Entry [i] of [c1 * a + c2 * b], syntactically. *)
Lemma lookup_mix (c1 c2 : Q) (a b : vec) (i : nat) (x y : Q) :
  a !! i = Some x → b !! i = Some y →
  zip_with Qplus (scale c1 a) (scale c2 b) !! i = Some (c1 * x + c2 * y)%Q.
Proof.
  intros Ha Hb. rewrite lookup_zip_with.
  change (scale c1 a) with (Qmult c1 <$> a).
  change (scale c2 b) with (Qmult c2 <$> b).
  rewrite !list_lookup_fmap, Ha, Hb. done.
Qed.

Lemma blend_styles_Return (alpha beta : Q) (s_pred ref_s : vec) :
  length s_pred = 256%nat → length ref_s = 256%nat →
  blend_styles alpha beta s_pred ref_s =
    Return (mk_styles
      (zip_with Qplus (scale alpha (take 128 s_pred))
                      (scale (1 - alpha) (take 128 ref_s)))
      (zip_with Qplus (scale beta (drop 128 s_pred))
                      (scale (1 - beta) (drop 128 ref_s)))).
Proof.
  intros Hs Hr. unfold blend_styles.
  rewrite !ew2_same_length; [done | |].
  - rewrite !length_scale, !length_take. lia.
  - rewrite !length_scale, !length_drop. lia.
Qed.

Lemma mix_convex (c a b : Q) :
  (0 <= c <= 1)%Q →
  ((a <= b → a <= c * a + (1 - c) * b <= b) ∧
   (b <= a → b <= c * a + (1 - c) * b <= a))%Q.
Proof. intros [H0 H1]. split; intros Hab; split; nra. Qed.

Lemma mix_zero (c a b : Q) : (c == 0 → c * a + (1 - c) * b == b)%Q.
Proof. intros ->. ring. Qed.

Lemma mix_one (c a b : Q) : (c == 1 → c * a + (1 - c) * b == a)%Q.
Proof. intros ->. ring. Qed.

Lemma Forall2_mix_zero (c : Q) (a b : vec) :
  length a = length b → (c == 0)%Q →
  Forall2 Qeq (zip_with Qplus (scale c a) (scale (1 - c) b)) b.
Proof.
  intros Hlen Hc. apply Forall2_same_length_lookup_2.
  - rewrite length_zip_with, !length_scale; lia.
  - intros i x y Hx Hy.
    destruct (lookup_lt_is_Some_2 a i) as [xa Hxa].
    { apply lookup_lt_Some in Hy. lia. }
    rewrite (lookup_mix _ _ _ _ _ _ _ Hxa Hy) in Hx.
    injection Hx as <-. by apply mix_zero.
Qed.

Lemma Forall2_mix_one (c : Q) (a b : vec) :
  length a = length b → (c == 1)%Q →
  Forall2 Qeq (zip_with Qplus (scale c a) (scale (1 - c) b)) a.
Proof.
  intros Hlen Hc. apply Forall2_same_length_lookup_2.
  - rewrite length_zip_with, !length_scale; lia.
  - intros i x y Hx Hy.
    destruct (lookup_lt_is_Some_2 b i) as [xb Hxb].
    { apply lookup_lt_Some in Hy. lia. }
    rewrite (lookup_mix _ _ _ _ _ _ _ Hy Hxb) in Hx.
    injection Hx as <-. by apply mix_one.
Qed.

Lemma affine_blend_mix (c : Q) (sampled reference : vec) :
  (0 <= c <= 1)%Q → length sampled = length reference →
  affine_blend c sampled reference
    (zip_with Qplus (scale c sampled) (scale (1 - c) reference)).
Proof.
  intros Hc Hlen. unfold affine_blend. split_and!.
  - rewrite length_zip_with, !length_scale. lia.
  - intros i a b. apply lookup_mix.
  - intros i a b x Ha Hb Hx.
    rewrite (lookup_mix _ _ _ _ _ _ _ Ha Hb) in Hx. injection Hx as <-.
    by apply mix_convex.
  - by apply Forall2_mix_zero.
  - by apply Forall2_mix_one.
Qed.

(** C1.  For alpha and beta in [0,1], the blend returns the timbre
    [alpha * sampled_timbre + (1 - alpha) * reference_timbre] and the
    prosody [beta * sampled_prosody + (1 - beta) * reference_prosody],
    entry by entry and with exactly these operations; alpha = 0 gives the
    reference timbre, alpha = 1 the sampled timbre, and likewise beta for
    the prosody.  The timbre is the blend weighted by alpha ([ref] in the
    source), the prosody the one weighted by beta ([s]). *)
Theorem C1_blend_affine (alpha beta : Q) (s_pred ref_s : vec) :
  (0 <= alpha <= 1)%Q → (0 <= beta <= 1)%Q →
  length s_pred = 256%nat → length ref_s = 256%nat →
  ∃ timbre prosody,
    blend_styles alpha beta s_pred ref_s = Return (mk_styles timbre prosody) ∧
    affine_blend alpha (take 128 s_pred) (take 128 ref_s) timbre ∧
    affine_blend beta (drop 128 s_pred) (drop 128 ref_s) prosody.
Proof.
  intros Ha Hb Hs Hr. eexists _, _. split; [by apply blend_styles_Return|].
  split; apply affine_blend_mix; try done.
  - rewrite !length_take. lia.
  - rewrite !length_drop. lia.
Qed.

Lemma C1_blend_affine_witness :
  ∃ timbre prosody,
    blend_styles (3 # 10) (7 # 10) Sample.sample Sample.reference
      = Return (mk_styles timbre prosody) ∧
    affine_blend (3 # 10) (take 128 Sample.sample) (take 128 Sample.reference) timbre ∧
    affine_blend (7 # 10) (drop 128 Sample.sample) (drop 128 Sample.reference) prosody.
Proof.
  apply (C1_blend_affine (3 # 10) (7 # 10) Sample.sample Sample.reference).
  - split; discriminate.
  - split; discriminate.
  - reflexivity.
  - reflexivity.
Defined.

(** C2, as stated, fails.  With the default factors, a sample whose first
    half is 1 and second half is 2, and a reference whose halves are 3 and
    4: the source blends the second half of the sample with beta (entries
    0.7 * 2 + 0.3 * 4 = 2.6) and the first half with alpha (entries
    0.3 * 1 + 0.7 * 3 = 2.4), where the split as specified would give 1.9
    and 2.7. *)
Lemma C2_split_counterexample :
  ∃ st st' x y x' y',
    blend_styles (3 # 10) (7 # 10) Sample.sample Sample.reference = Return st ∧
    blend_styles_as_specified (3 # 10) (7 # 10) Sample.sample Sample.reference
      = Return st' ∧
    st_s st !! 0%nat = Some x ∧ st_s st' !! 0%nat = Some x' ∧
    st_ref st !! 0%nat = Some y ∧ st_ref st' !! 0%nat = Some y' ∧
    (x == 13 # 5)%Q ∧ (x' == 19 # 10)%Q ∧ ¬ (x == x')%Q ∧
    (y == 12 # 5)%Q ∧ (y' == 27 # 10)%Q ∧ ¬ (y == y')%Q.
Proof.
  do 6 eexists. split_and!; try (vm_compute; reflexivity); discriminate.
Qed.

(** C2, amended.  The 256 entries of the sample are split at index 128.
    Entries [0,128) are blended with alpha against entries [0,128) of the
    reference style (the style-encoder half) and become [ref], the style
    given to the decoder; entries [128,256) are blended with beta against
    entries [128,256) of the reference style (the predictor-encoder half)
    and become [s], the style given to the predictor. *)
Theorem C2_split_amended (alpha beta : Q) (s_pred ref_timbre ref_prosody : vec) :
  length s_pred = 256%nat →
  length ref_timbre = 128%nat → length ref_prosody = 128%nat →
  ∃ ref s,
    blend_styles alpha beta s_pred (cat_reference_style ref_timbre ref_prosody)
      = Return (mk_styles ref s) ∧
    length ref = 128%nat ∧ length s = 128%nat ∧
    ∀ i, (i < 128)%nat →
      ∃ lo hi t p,
        s_pred !! i = Some lo ∧ s_pred !! (128 + i)%nat = Some hi ∧
        ref_timbre !! i = Some t ∧ ref_prosody !! i = Some p ∧
        ref !! i = Some (alpha * lo + (1 - alpha) * t)%Q ∧
        s !! i = Some (beta * hi + (1 - beta) * p)%Q.
Proof.
  intros Hs Ht Hp. unfold cat_reference_style. eexists _, _.
  split; [apply blend_styles_Return; [done | rewrite length_app; lia]|].
  rewrite take_app_length' by done. rewrite drop_app_length' by done.
  split_and!.
  - rewrite length_zip_with, !length_scale, length_take. lia.
  - rewrite length_zip_with, !length_scale, length_drop. lia.
  - intros i Hi.
    destruct (lookup_lt_is_Some_2 s_pred i) as [lo Hlo]; [lia|].
    destruct (lookup_lt_is_Some_2 s_pred (128 + i)) as [hi Hhi]; [lia|].
    destruct (lookup_lt_is_Some_2 ref_timbre i) as [t Htl]; [lia|].
    destruct (lookup_lt_is_Some_2 ref_prosody i) as [p Hpl]; [lia|].
    exists lo, hi, t, p. split_and!; try done.
    + apply lookup_mix; [|done]. by rewrite lookup_take_lt.
    + apply lookup_mix; [|done]. by rewrite lookup_drop.
Qed.

Lemma C2_split_amended_witness :
  ∃ ref s,
    blend_styles (3 # 10) (7 # 10) Sample.sample
        (cat_reference_style (replicate 128 3%Q) (replicate 128 4%Q))
      = Return (mk_styles ref s) ∧
    length ref = 128%nat ∧ length s = 128%nat ∧
    ∀ i, (i < 128)%nat →
      ∃ lo hi t p,
        Sample.sample !! i = Some lo ∧ Sample.sample !! (128 + i)%nat = Some hi ∧
        replicate 128 3%Q !! i = Some t ∧ replicate 128 4%Q !! i = Some p ∧
        ref !! i = Some ((3 # 10) * lo + (1 - (3 # 10)) * t)%Q ∧
        s !! i = Some ((7 # 10) * hi + (1 - (7 # 10)) * p)%Q.
Proof.
  apply (C2_split_amended (3 # 10) (7 # 10) Sample.sample
           (replicate 128 3%Q) (replicate 128 4%Q)); reflexivity.
Defined.

(** ** Integer conversion and sums *)

Lemma py_int_inject_Z (z : Z) : py_int (inject_Z z) = z.
Proof. unfold py_int. simpl. apply Z.quot_1_r. Qed.

Lemma Qsum_inject_Z (l : list Z) : Qsum (inject_Z <$> l) = inject_Z (Zsum l).
Proof.
  induction l as [|z l IH]; [done|].
  change (Qsum (inject_Z <$> z :: l)) with (inject_Z z + Qsum (inject_Z <$> l))%Q.
  rewrite IH. unfold Qplus, inject_Z. simpl. f_equal. lia.
Qed.

Lemma Zsum_app (l k : list Z) : Zsum (l ++ k) = Zsum l + Zsum k.
Proof. induction l as [|z l IH]; simpl; lia. Qed.

Lemma Zsum_nonneg (l : list Z) : Forall (λ d, 0 ≤ d) l → 0 ≤ Zsum l.
Proof. induction 1; simpl; lia. Qed.


(** ** The cursor *)

Lemma cursor_0 (durs : list Z) : cursor durs 0 = 0.
Proof. done. Qed.

Lemma cursor_S (durs : list Z) (i : nat) (d : Z) :
  durs !! i = Some d → cursor durs (S i) = cursor durs i + d.
Proof.
  intros Hd. unfold cursor. rewrite (take_S_r _ _ _ Hd), Zsum_app. simpl. lia.
Qed.

Lemma cursor_ge (durs : list Z) (i : nat) :
  (length durs ≤ i)%nat → cursor durs i = Zsum durs.
Proof. intros Hi. unfold cursor. by rewrite take_ge. Qed.

Lemma cursor_cons (d : Z) (durs : list Z) (i : nat) :
  cursor (d :: durs) (S i) = d + cursor durs i.
Proof. done. Qed.

Lemma cursor_mono (durs : list Z) (i i' : nat) :
  Forall (λ d, 0 ≤ d) durs → (i ≤ i')%nat → cursor durs i ≤ cursor durs i'.
Proof.
  intros Hpos Hle. unfold cursor.
  replace i' with (i + (i' - i))%nat by lia.
  rewrite <- take_take_drop, Zsum_app.
  assert (0 ≤ Zsum (take (i' - i) (drop i durs))); [|lia].
  apply Zsum_nonneg. by apply Forall_take, Forall_drop.
Qed.

(** Every frame below the total lies in the interval of some token. *)
Lemma cursor_locate (durs : list Z) (z : Z) :
  Forall (λ d, 0 < d) durs → 0 ≤ z < Zsum durs →
  ∃ i d, durs !! i = Some d ∧ cursor durs i ≤ z < cursor durs i + d.
Proof.
  intros Hpos. revert z. induction Hpos as [|d durs Hd Hpos IH]; intros z Hz.
  - simpl in Hz. lia.
  - destruct (decide (z < d)) as [Hlt|Hge].
    + exists 0%nat, d. rewrite cursor_0. split; [done | lia].
    + destruct (IH (z - d)) as (i & d' & Hi & Hin); [simpl in Hz; lia|].
      exists (S i), d'. rewrite cursor_cons. split; [done | lia].
Qed.

(** The intervals of two distinct tokens are disjoint. *)
Lemma cursor_disjoint (durs : list Z) (i i' : nat) (d d' z : Z) :
  Forall (λ d, 0 < d) durs →
  durs !! i = Some d → durs !! i' = Some d' →
  cursor durs i ≤ z < cursor durs i + d →
  cursor durs i' ≤ z < cursor durs i' + d' →
  i = i'.
Proof.
  intros Hpos Hi Hi' Hz Hz'.
  assert (Forall (λ d, 0 ≤ d) durs) as Hnn.
  { eapply Forall_impl; [done|]. simpl. lia. }
  destruct (Nat.lt_trichotomy i i') as [Hlt|[->|Hlt]]; [|done|].
  - pose proof (cursor_mono durs (S i) i' Hnn ltac:(lia)) as Hm.
    rewrite (cursor_S _ _ _ Hi) in Hm. lia.
  - pose proof (cursor_mono durs (S i') i Hnn ltac:(lia)) as Hm.
    rewrite (cursor_S _ _ _ Hi') in Hm. lia.
Qed.

(** ** The alignment loop *)

Lemma norm_index_id (len i : Z) : 0 ≤ i → norm_index len i = Z.min i len.
Proof. intros Hi. unfold norm_index. by rewrite (proj2 (Z.ltb_ge i 0)). Qed.

Lemma length_slice_fill (row : vec) (lo hi : Z) (v : Q) :
  length (slice_fill row lo hi v) = length row.
Proof. apply length_imap. Qed.

Lemma lookup_slice_fill (row : vec) (lo hi : Z) (v : Q) (j : nat) :
  0 ≤ lo → 0 ≤ hi →
  slice_fill row lo hi v !! j =
    (λ x, if bool_decide (lo ≤ Z.of_nat j < hi) then v else x) <$> row !! j.
Proof.
  intros Hlo Hhi. unfold slice_fill. rewrite list_lookup_imap.
  destruct (row !! j) as [x|] eqn:Hj; [|done]. simpl. f_equal.
  apply lookup_lt_Some in Hj. rewrite !norm_index_id by done.
  repeat case_bool_decide; (done || lia).
Qed.

Lemma align_step_T1 (durs : list Z) (aln : mat) (c : Z) (i : nat) (d : Z) :
  durs !! i = Some d →
  align_step (T1 (inject_Z <$> durs)) (aln, c) i =
    Return (alter (λ row, slice_fill row c (c + d) 1%Q) i aln, c + d).
Proof.
  intros Hd. unfold align_step, tensor_index.
  rewrite list_lookup_fmap, Hd. simpl. by rewrite py_int_inject_Z.
Qed.

(** Running the loop body over rows [i, i + k): those rows are filled on
    their own interval, the others are left as they were, and the cursor
    ends at the start of row [i + k]. *)
Lemma align_loop (durs : list Z) (k i : nat) (aln : mat) :
  (i + k ≤ length durs)%nat →
  ∃ aln',
    for_each (align_step (T1 (inject_Z <$> durs))) (aln, cursor durs i) (seq i k)
      = Return (aln', cursor durs (i + k)) ∧
    ∀ r, aln' !! r =
         if bool_decide (i ≤ r < i + k)%nat
         then (λ row, slice_fill row (cursor durs r) (cursor durs (S r)) 1%Q)
                <$> aln !! r
         else aln !! r.
Proof.
  revert i aln. induction k as [|k IH]; intros i aln Hik.
  - exists aln. rewrite Nat.add_0_r. split; [done|].
    intros r. by rewrite bool_decide_false by lia.
  - destruct (lookup_lt_is_Some_2 durs i) as [d Hd]; [lia|].
    destruct (IH (S i)
                (alter (λ row, slice_fill row (cursor durs i) (cursor durs i + d) 1%Q)
                       i aln))
      as (aln' & Hrun & Hrows); [lia|].
    exists aln'. split.
    + change (seq i (S k)) with (i :: seq (S i) k).
      cbn [for_each]. rewrite (align_step_T1 _ _ _ _ _ Hd).
      rewrite <- (cursor_S _ _ _ Hd) in Hrun |- *. cbn.
      by rewrite Hrun, Nat.add_succ_r.
    + intros r. rewrite Hrows.
      destruct (decide (r = i)) as [->|Hne].
      * rewrite bool_decide_false, bool_decide_true by lia.
        by rewrite list_lookup_alter_eq, (cursor_S _ _ _ Hd).
      * rewrite list_lookup_alter_ne by done.
        repeat case_bool_decide; (done || lia).
Qed.

Lemma length_of_lookups {A : Type} (l : list A) (n : nat) (f : nat → A) :
  (∀ r, l !! r = if bool_decide (r < n)%nat then Some (f r) else None) →
  length l = n.
Proof.
  intros Hl. destruct (decide (length l < n)%nat) as [Hlt|Hge].
  - pose proof (Hl (length l)) as Hr.
    rewrite bool_decide_true, lookup_ge_None_2 in Hr by lia. done.
  - destruct (decide (n < length l)%nat) as [Hlt|]; [|lia].
    destruct (lookup_lt_is_Some_2 l n Hlt) as [x Hx].
    rewrite Hl, bool_decide_false in Hx by lia. done.
Qed.

Lemma build_alignment_rows (durs : list Z) :
  Forall (λ d, 0 ≤ d) durs →
  ∃ aln,
    build_alignment (length durs) (T1 (inject_Z <$> durs)) = Return aln ∧
    ∀ r, aln !! r =
         if bool_decide (r < length durs)%nat
         then Some (slice_fill (replicate (Z.to_nat (Zsum durs)) 0%Q)
                               (cursor durs r) (cursor durs (S r)) 1%Q)
         else None.
Proof.
  intros Hnn. unfold build_alignment, tensor_sum, tensor_elems.
  rewrite Qsum_inject_Z, py_int_inject_Z.
  pose proof (Zsum_nonneg _ Hnn) as Hsum.
  rewrite (proj2 (Z.ltb_ge _ _)) by done.
  unfold zeros. rewrite length_replicate.
  destruct (align_loop durs (length durs) 0
              (replicate (length durs) (replicate (Z.to_nat (Zsum durs)) 0%Q)))
    as (aln & Hrun & Hrows); [lia|].
  rewrite cursor_0 in Hrun. rewrite Hrun. cbn. exists aln. split; [done|].
  intros r. rewrite Hrows. case_bool_decide as Hr.
  - rewrite bool_decide_true by lia. by rewrite lookup_replicate_2 by lia.
  - rewrite bool_decide_false by lia. apply lookup_replicate_None. lia.
Qed.

Lemma build_alignment_entry (durs : list Z) (aln : mat) (i j : nat) (d : Z) :
  Forall (λ d, 0 ≤ d) durs →
  build_alignment (length durs) (T1 (inject_Z <$> durs)) = Return aln →
  durs !! i = Some d → Z.of_nat j < Zsum durs →
  entry aln i j =
    Some (if bool_decide (cursor durs i ≤ Z.of_nat j < cursor durs i + d)
          then 1%Q else 0%Q).
Proof.
  intros Hnn Hrun Hd Hj.
  destruct (build_alignment_rows durs Hnn) as (aln' & Hrun' & Hrows).
  rewrite Hrun in Hrun'. injection Hrun' as <-.
  unfold entry. rewrite Hrows.
  rewrite bool_decide_true by (by eapply lookup_lt_Some). simpl.
  pose proof (cursor_mono durs 0 i Hnn ltac:(lia)) as H0. rewrite cursor_0 in H0.
  pose proof (cursor_mono durs 0 (S i) Hnn ltac:(lia)) as H1. rewrite cursor_0 in H1.
  rewrite lookup_slice_fill by done.
  rewrite lookup_replicate_2 by lia. simpl.
  by rewrite (cursor_S _ _ _ Hd).
Qed.




(** ** Durations *)

Lemma round_half_even_nearest (x : Q) :
  (Qabs (inject_Z (round_half_even x) - x) <= 1 # 2)%Q.
Proof.
  pose proof (Qfloor_le x) as Hlo. pose proof (Qlt_floor x) as Hhi.
  rewrite inject_Z_plus in Hhi. change (inject_Z 1) with 1%Q in Hhi.
  apply Qabs_Qle_condition. unfold round_half_even.
  destruct (x - inject_Z (Qfloor x) ?= 1 # 2)%Q eqn:Hc.
  - apply Qeq_alt in Hc.
    destruct (Z.even (Qfloor x));
      [|rewrite inject_Z_plus; change (inject_Z 1) with 1%Q]; split; lra.
  - apply Qlt_alt in Hc. split; lra.
  - apply Qgt_alt in Hc. rewrite inject_Z_plus.
    change (inject_Z 1) with 1%Q. split; lra.
Qed.



Lemma clamp_min_inject_Z (z : Z) :
  clamp_min 1 (inject_Z z) = inject_Z (Z.max 1 z).
Proof.
  unfold clamp_min. destruct (Qle_bool 1 (inject_Z z)) eqn:Hb.
  - apply Qle_bool_iff in Hb. change 1%Q with (inject_Z 1) in Hb.
    rewrite <- Zle_Qle in Hb. by rewrite Z.max_r.
  - assert (¬ 1 ≤ z) as Hlt.
    { intros Hle. rewrite Zle_Qle in Hle. change (inject_Z 1) with 1%Q in Hle.
      apply Qle_bool_iff in Hle. congruence. }
    rewrite Z.max_l by lia. done.
Qed.

Lemma tensor_elems_map (f : Q → Q) (t : tensor) :
  tensor_elems (tensor_map f t) = f <$> tensor_elems t.
Proof. by destruct t. Qed.

Lemma tensor_elems_squeeze (v : vec) : tensor_elems (squeeze v) = v.
Proof. by destruct v as [|x [|y v]]. Qed.

(** The integer durations behind [predict_durations]. *)
Lemma predict_durations_elems (sg : Q → Q) (duration : mat) :
  tensor_elems (predict_durations sg duration) =
    inject_Z <$> ((λ row, Z.max 1 (round_half_even (Qsum (map sg row)))) <$> duration).
Proof.
  unfold predict_durations.
  rewrite !tensor_elems_map, tensor_elems_squeeze.
  change (map ?f ?l) with (f <$> l).
  rewrite <- !list_fmap_compose. apply list_fmap_ext.
  intros _ row _. simpl. unfold torch_round. apply clamp_min_inject_Z.
Qed.


(** ** Tail trim *)




(** ** [synthesize] *)

(** C4.  [synthesize] returns [True] exactly when the inference call handed
    back a waveform, and then one PCM chunk has been appended to the queue;
    when the inference call handed back [None] it returns [False], raises
    nothing and leaves the queue as it was.  A call that returns has added
    one chunk if it returns [True] and none if it returns [False]. *)
Theorem C4_synthesize_boolean
    (inference : engine → string → Q → Q → Z → Q → result pyval)
    (self : engine) (text : string) :
  let outcome := inference self text (alpha self) (beta self)
                   (diffusion_steps self) (embedding_scale self) in
  (∀ w, outcome = Return (PyArray w) →
     ∃ self', synthesize_with inference self text = Return (true, self') ∧
              queue self' = queue self ++ [pcm_bytes w]) ∧
  (outcome = Return PyNone →
     synthesize_with inference self text = Return (false, self)) ∧
  (∀ b self', synthesize_with inference self text = Return (b, self') →
     (b = true ↔ ∃ w, outcome = Return (PyArray w)) ∧
     (if b then ∃ audio_data, queue self' = queue self ++ [audio_data]
      else queue self' = queue self)).
Proof.
  intros outcome. unfold synthesize_with. fold outcome.
  destruct outcome as [[|w]|e]; cbn; split_and!; try done.
  - intros b self' [= <- <-]. split; [|done].
    split; [done | by intros [w ?]].
  - intros w' [= <-]. eexists. split; [done|]. done.
  - intros b self' [= <- <-]. split; [split; eauto|].
    by eexists.
Qed.

Lemma C4_synthesize_boolean_witness :
  (∃ self', synthesize_with (λ _ _ _ _ _ _, Return (PyArray (T1 [1; -1]%Q)))
              Sample.self "hi" = Return (true, self') ∧
            queue self' = [[255; 127; 1; 128]]) ∧
  synthesize_with (λ _ _ _ _ _ _, Return PyNone) Sample.self "hi"
    = Return (false, Sample.self).
Proof.
  split.
  - destruct (C4_synthesize_boolean
                (λ _ _ _ _ _ _, Return (PyArray (T1 [1; -1]%Q))) Sample.self "hi")
      as [Hsome _].
    apply (Hsome (T1 [1; -1]%Q)). reflexivity.
  - destruct (C4_synthesize_boolean (λ _ _ _ _ _ _, Return PyNone) Sample.self "hi")
      as (_ & Hnone & _).
    apply Hnone. reflexivity.
Defined.

(** C10.  [inference] never hands back [None]: whenever it returns, the
    value is an array.  Hence [synthesize] never returns [False]: whenever
    it returns, the value is [True] and exactly one PCM chunk has been
    appended to the queue. *)
Theorem C10_false_branch_unreachable (M : model) (noise : vec) (self : engine)
    (text : string) :
  (∀ alpha beta steps guidance r,
     inference M noise self text alpha beta steps guidance = Return r →
     ∃ w, r = PyArray w) ∧
  (∀ b self', synthesize M noise self text = Return (b, self') →
     b = true ∧ ∃ chunk, queue self' = queue self ++ [chunk]).
Proof.
  split.
  - intros alpha beta steps guidance r. unfold inference.
    destruct (inference_waveform _ _ _ _ _ _ _ _) as [w|e]; cbn; [|done].
    destruct (trim_tail w) as [w'|e]; cbn; [|done].
    intros [= <-]. by eexists.
  - intros b self'. unfold synthesize, synthesize_with, inference.
    destruct (inference_waveform _ _ _ _ _ _ _ _) as [w|e]; cbn; [|done].
    destruct (trim_tail w) as [w'|e]; cbn; [|done].
    intros [= <- <-]. split; [done|]. by eexists.
Qed.

Lemma C10_false_branch_unreachable_witness :
  ∃ b self',
    synthesize (Sample.toy "istftnet" 40) Sample.sample Sample.self "hi"
      = Return (b, self') ∧
    b = true ∧ ∃ chunk, queue self' = queue Sample.self ++ [chunk].
Proof.
  destruct (C10_false_branch_unreachable (Sample.toy "istftnet" 40) Sample.sample
              Sample.self "hi") as [_ Hsyn].
  eexists _, _. split; [vm_compute; reflexivity|].
  apply Hsyn. vm_compute. reflexivity.
Defined.

(** ** PCM conversion *)

(** [int] rounds toward zero. *)
Lemma py_int_truncates (y : Q) :
  ((0 <= y → inject_Z (py_int y) <= y ∧ y < inject_Z (py_int y) + 1) ∧
   (y <= 0 → y <= inject_Z (py_int y) ∧ inject_Z (py_int y) - 1 < y))%Q.
Proof.
  destruct y as [p q]. unfold py_int, Qle, Qlt. simpl.
  rewrite ?Pos.mul_1_r, ?Z.mul_1_r, ?Z.mul_1_l.
  pose proof (Z.quot_rem' p (Z.pos q)) as Hqr.
  pose proof (Z.rem_bound_pos p (Z.pos q)) as Hpos.
  pose proof (Zrem_lt_neg_pos p (Z.pos q)) as Hneg.
  set (k := Z.quot p (Z.pos q)) in *. set (r := Z.rem p (Z.pos q)) in *.
  split; intros Hs.
  - destruct Hpos; [lia | lia |]. split; nia.
  - destruct Hneg; [lia | lia |]. split; nia.
Qed.

Lemma py_int_bounds (y : Q) (n : Z) :
  0 ≤ n → (- inject_Z n <= y)%Q → (y <= inject_Z n)%Q → - n ≤ py_int y ≤ n.
Proof.
  destruct y as [p q]. unfold py_int, Qle. simpl.
  rewrite ?Pos.mul_1_r, ?Z.mul_1_r, ?Z.mul_1_l. intros Hn Hlo Hhi.
  pose proof (Z.quot_rem' p (Z.pos q)) as Hqr.
  pose proof (Z.rem_bound_pos p (Z.pos q)) as Hpos.
  pose proof (Zrem_lt_neg_pos p (Z.pos q)) as Hneg.
  set (k := Z.quot p (Z.pos q)) in *. set (r := Z.rem p (Z.pos q)) in *.
  destruct (Z_le_gt_dec 0 p) as [Hp|Hp].
  - destruct Hpos; [lia | lia |]. split; nia.
  - destruct Hneg; [lia | lia |]. split; nia.
Qed.


Lemma to_int16_in_range (x : Q) :
  -32768 ≤ py_int x ≤ 32767 → to_int16 x = py_int x.
Proof. intros Hx. unfold to_int16. rewrite Z.mod_small; lia. Qed.








(** ** The one-frame shift *)

Lemma shift_row_cons (x0 : Q) (rest : vec) :
  shift_row (x0 :: rest) = Return (x0 :: take (length rest) (x0 :: rest)).
Proof.
  unfold shift_row. cbn. by rewrite Nat.sub_0_r.
Qed.

Lemma shift_row_spec (row : vec) :
  row ≠ [] →
  ∃ row', shift_row row = Return row' ∧
          length row' = length row ∧
          row' !! 0%nat = row !! 0%nat ∧
          ∀ i, (1 ≤ i < length row)%nat → row' !! i = row !! (i - 1)%nat.
Proof.
  destruct row as [|x0 rest]; [done|]. intros _.
  eexists. split; [apply shift_row_cons|]. split_and!.
  - cbn [length]. rewrite length_take. cbn [length]. lia.
  - done.
  - intros [|i] Hi; [lia|]. cbn [length] in Hi.
    change ((x0 :: take (length rest) (x0 :: rest)) !! S i)
      with (take (length rest) (x0 :: rest) !! i).
    rewrite lookup_take_lt by lia. f_equal. lia.
Qed.

Lemma mapM_shift_row (en : mat) :
  Forall (λ row : vec, row ≠ []) en →
  ∃ out, mapM shift_row en = Return out ∧ shifted_by_one en out.
Proof.
  induction 1 as [|row en Hrow Hen (out & Hrun & Hlen & Hrows)].
  - exists []. split; [done|]. split; [done|]. intros c row Hc. done.
  - destruct (shift_row_spec row Hrow) as (row' & Hr & Hspec).
    exists (row' :: out). split; [cbn; by rewrite Hr, Hrun|].
    split; [cbn; by rewrite Hlen|].
    intros [|c] r Hc.
    + injection Hc as <-. by exists row'.
    + by apply Hrows.
Qed.

(** C7.  With the decoder type ["hifigan"], the two aligned feature
    sequences ([en], from the prosody encoder, and [asr], from the text
    encoder) are each replaced by their one-frame right shift before they
    reach the pitch/energy predictor and the decoder: frame 0 is kept and
    frame [i >= 1] holds what frame [i - 1] held.  With any other decoder
    type both are passed on as they are. *)
Theorem C7_hifigan_shift (M : model) (d t_en pred_aln_trg : mat) (s ref : vec)
    (en asr : mat) :
  matmul (transpose d) pred_aln_trg = Return en →
  matmul t_en pred_aln_trg = Return asr →
  Forall (λ row : vec, row ≠ []) en →
  Forall (λ row : vec, row ≠ []) asr →
  (decoder_type M = "hifigan" →
     ∃ en' asr',
       hifigan_shift (decoder_type M) en = Return en' ∧
       hifigan_shift (decoder_type M) asr = Return asr' ∧
       shifted_by_one en en' ∧ shifted_by_one asr asr' ∧
       decode_aligned M d t_en pred_aln_trg s ref =
         ('(F0_pred, N_pred) ← F0Ntrain M en' s;
          out ← decoder M asr' F0_pred N_pred ref;
          Return (squeeze out))) ∧
  (decoder_type M ≠ "hifigan" →
     hifigan_shift (decoder_type M) en = Return en ∧
     hifigan_shift (decoder_type M) asr = Return asr ∧
     decode_aligned M d t_en pred_aln_trg s ref =
       ('(F0_pred, N_pred) ← F0Ntrain M en s;
        out ← decoder M asr F0_pred N_pred ref;
        Return (squeeze out))).
Proof.
  intros Hen Hasr Hne Hna. unfold decode_aligned, hifigan_shift.
  rewrite Hen, Hasr, !bind_Return_l. split; intros Hty.
  - rewrite !decide_True by done.
    destruct (mapM_shift_row en Hne) as (en' & Hrun & Hshift).
    destruct (mapM_shift_row asr Hna) as (asr' & Hrun' & Hshift').
    exists en', asr'. rewrite Hrun, Hrun', !bind_Return_l.
    do 4 (split; [done|]).
    destruct (F0Ntrain M en' s) as [[F0 N]|e]; [|done].
    rewrite !bind_Return_l, decide_True by done.
    by rewrite Hrun', bind_Return_l.
  - rewrite !decide_False by done. rewrite !bind_Return_l.
    do 2 (split; [done|]).
    destruct (F0Ntrain M en s) as [[F0 N]|e]; [|done].
    rewrite !bind_Return_l, decide_False by done.
    by rewrite bind_Return_l.
Qed.

Lemma C7_hifigan_shift_witness :
  let d := [[1; 2]; [3; 4]; [5; 6]]%Q in
  let t_en := [[0; 5; 7]; [1; 1; 1]]%Q in
  let pred_aln_trg :=
    [[1; 1; 0; 0; 0; 0]; [0; 0; 1; 1; 1; 0]; [0; 0; 0; 0; 0; 1]]%Q in
  let en := [[1; 1; 3; 3; 3; 5]; [2; 2; 4; 4; 4; 6]]%Q in
  let asr := [[0; 0; 5; 5; 5; 7]; [1; 1; 1; 1; 1; 1]]%Q in
  (∃ en' asr',
     hifigan_shift "hifigan" en = Return en' ∧
     hifigan_shift "hifigan" asr = Return asr' ∧
     shifted_by_one en en' ∧ shifted_by_one asr asr') ∧
  decode_aligned (Sample.toy "istftnet" 0) d t_en pred_aln_trg [] [] =
    ('(F0_pred, N_pred) ← F0Ntrain (Sample.toy "istftnet" 0) en [];
     out ← decoder (Sample.toy "istftnet" 0) asr F0_pred N_pred [];
     Return (squeeze out)).
Proof.
  intros d t_en pred_aln_trg en asr. split.
  - destruct (C7_hifigan_shift (Sample.toy "hifigan" 0) d t_en pred_aln_trg [] []
                en asr) as [Hh _].
    + vm_compute. reflexivity.
    + vm_compute. reflexivity.
    + repeat constructor; discriminate.
    + repeat constructor; discriminate.
    + destruct Hh as (en' & asr' & H1 & H2 & H3 & H4 & _); [reflexivity|].
      exists en', asr'. exact (conj H1 (conj H2 (conj H3 H4))).
  - destruct (C7_hifigan_shift (Sample.toy "istftnet" 0) d t_en pred_aln_trg [] []
                en asr) as [_ Ho].
    + vm_compute. reflexivity.
    + vm_compute. reflexivity.
    + repeat constructor; discriminate.
    + repeat constructor; discriminate.
    + destruct Ho as (_ & _ & Hrun); [discriminate | exact Hrun].
Defined.

(** ** Checkpoint keys *)

Lemma str_drop_app (prefix k : string) :
  str_drop (String.length prefix) (prefix +:+ k) = k.
Proof. induction prefix as [|a prefix IH]; [done|]. apply IH. Qed.

Section DictFacts.
Context {V : Type}.
Implicit Types (d : dict V) (k name : string) (v : V).

Lemma elem_of_dict_keys_set d k v name :
  name ∈ dict_keys (dict_set d k v) ↔ name ∈ dict_keys d ∨ name = k.
Proof.
  unfold dict_keys. induction d as [|[k' v'] d IH]; simpl.
  - rewrite list_elem_of_singleton, elem_of_nil. tauto.
  - case_decide as Hk; simpl.
    + subst k'. rewrite !elem_of_cons. tauto.
    + rewrite !elem_of_cons, IH. tauto.
Qed.

Lemma dict_set_fresh d k v :
  k ∉ dict_keys d → dict_set d k v = d ++ [(k, v)].
Proof.
  unfold dict_keys. induction d as [|[k' v'] d IH]; simpl; [done|].
  intros Hk. apply not_elem_of_cons in Hk as [Hne Hk].
  rewrite decide_False by done. by rewrite IH.
Qed.

(** The keys after the loop of lines 188-190, started from [acc]. *)
Lemma elem_of_strip_keys_acc (sd acc : dict V) name :
  name ∈ dict_keys
           (foldl (λ new kv, dict_set new (str_drop 7 kv.1) kv.2) acc sd)
  ↔ name ∈ dict_keys acc ∨ ∃ k, k ∈ dict_keys sd ∧ name = str_drop 7 k.
Proof.
  revert acc. induction sd as [|[k v] sd IH]; intros acc; simpl.
  - split; [by left|].
    intros [?|(k & Hk & _)]; [done|]. by apply elem_of_nil in Hk.
  - rewrite IH, elem_of_dict_keys_set.
    change (dict_keys ((k, v) :: sd)) with (k :: dict_keys sd).
    split.
    + intros [[?| ->]|(k' & Hk' & ->)]; [by left| |].
      * right. exists k. split; [apply elem_of_cons; by left | done].
      * right. exists k'. split; [apply elem_of_cons; by right | done].
    + intros [?|(k' & Hk' & ->)]; [by left; left|].
      apply elem_of_cons in Hk' as [-> |Hk']; [by left; right|].
      right. by exists k'.
Qed.

Lemma strip_prefixed_acc (prefix : string) (expected acc : dict V) :
  String.length prefix = 7%nat →
  NoDup (dict_keys acc ++ dict_keys expected) →
  foldl (λ new kv, dict_set new (str_drop 7 kv.1) kv.2) acc
        ((λ kv, (prefix +:+ kv.1, kv.2)) <$> expected)
    = acc ++ expected.
Proof.
  intros Hlen. revert acc.
  induction expected as [|[k v] expected IH]; intros acc Hnd.
  - simpl. by rewrite app_nil_r.
  - rewrite fmap_cons. cbn [foldl fst snd].
    replace (str_drop 7 (prefix +:+ k)) with k
      by (by rewrite <- Hlen, str_drop_app).
    unfold dict_keys in Hnd. simpl in Hnd.
    rewrite dict_set_fresh.
    + rewrite IH; [by rewrite <- app_assoc|].
      unfold dict_keys. rewrite fmap_app, <- app_assoc. done.
    + apply NoDup_app in Hnd as (_ & Hdisj & _).
      intros Hk. apply (Hdisj k Hk). apply elem_of_cons. by left.
Qed.
End DictFacts.

(** C6.  When the strict load of a sub-model's state dictionary fails, the
    loader loads again, non-strictly, the dictionary rebuilt with the first
    7 characters removed from every key.  If all keys carry one 7-character
    prefix in front of the expected keys, the rebuilt dictionary is the
    expected one: same keys, in the same order, with the same weights. *)
Theorem C6_checkpoint_key_fallback {W Module : Type}
    (load_state_dict : Module → dict W → bool → Module * option exn)
    (m : Module) (params_key : dict W) :
  (∀ m1 e, load_state_dict m params_key true = (m1, Some e) →
     load_submodel load_state_dict m params_key
       = load_state_dict m1 (strip_module_prefix params_key) false) ∧
  (∀ m1, load_state_dict m params_key true = (m1, None) →
     load_submodel load_state_dict m params_key = (m1, None)) ∧
  (∀ name, name ∈ dict_keys (strip_module_prefix params_key) ↔
           ∃ k, k ∈ dict_keys params_key ∧ name = str_drop 7 k) ∧
  (∀ prefix expected,
     String.length prefix = 7%nat →
     NoDup (dict_keys expected) →
     params_key = (λ kv, (prefix +:+ kv.1, kv.2)) <$> expected →
     strip_module_prefix params_key = expected ∧
     dict_keys (strip_module_prefix params_key) = dict_keys expected).
Proof.
  split_and!.
  - intros m1 e Hload. unfold load_submodel. by rewrite Hload.
  - intros m1 Hload. unfold load_submodel. by rewrite Hload.
  - intros name. unfold strip_module_prefix.
    rewrite elem_of_strip_keys_acc. split; [|by right].
    intros [Hnil|?]; [|done]. by apply elem_of_nil in Hnil.
  - intros prefix expected Hlen Hnd ->.
    assert (strip_module_prefix ((λ kv, (prefix +:+ kv.1, kv.2)) <$> expected)
            = expected) as Heq.
    { unfold strip_module_prefix. by rewrite strip_prefixed_acc. }
    by rewrite Heq.
Qed.

Lemma C6_checkpoint_key_fallback_witness :
  let m := [("weight", 0); ("bias", 0); ("scale", 9)] in
  let params_key := [("module.weight", 1); ("module.bias", 2)] in
  load_submodel Sample.load_by_key m params_key
    = ([("weight", 1); ("bias", 2); ("scale", 9)], None) ∧
  strip_module_prefix params_key = [("weight", 1); ("bias", 2)].
Proof.
  intros m params_key.
  destruct (C6_checkpoint_key_fallback Sample.load_by_key m params_key)
    as (Hretry & _ & _ & Hkeys).
  split.
  - rewrite (Hretry m RuntimeError); reflexivity.
  - apply (Hkeys "module." [("weight", 1); ("bias", 2)]).
    + reflexivity.
    + apply (bool_decide_unpack (NoDup (dict_keys [("weight", 1); ("bias", 2)]))).
      vm_compute. exact I.
    + reflexivity.
Defined.

(** ** From the durations to the alignment

    With two tokens or more the duration tensor of line 294 is a vector of
    positive integers and the alignment loop returns.  With one token it is
    0-dimensional after [squeeze()], and the first [pred_dur[i]] of the
    loop raises. *)

Lemma predict_durations_vector (sg : Q → Q) (duration : mat) :
  (2 ≤ length duration)%nat →
  ∃ durs, predict_durations sg duration = T1 (inject_Z <$> durs) ∧
          length durs = length duration ∧
          Forall (λ d, 0 < d) durs.
Proof.
  intros Hlen. pose proof (predict_durations_elems sg duration) as He.
  assert (∃ v, predict_durations sg duration = T1 v) as [v Hv].
  { destruct duration as [|r1 [|r2 rest]]; simpl in Hlen; try lia.
    by eexists. }
  rewrite Hv in He |- *. simpl in He. subst v.
  eexists. split_and!; [done | by rewrite length_fmap |].
  apply Forall_fmap, Forall_forall. intros row _. simpl. lia.
Qed.

Lemma alignment_of_predicted_durations (sg : Q → Q) (duration : mat) :
  (2 ≤ length duration)%nat →
  ∃ aln, build_alignment (length duration) (predict_durations sg duration)
           = Return aln ∧
         length aln = length duration.
Proof.
  intros Hlen.
  destruct (predict_durations_vector sg duration Hlen) as (durs & -> & <- & Hpos).
  destruct (build_alignment_rows durs) as (aln & Hrun & Hrows).
  { eapply Forall_impl; [done|]. simpl. lia. }
  exists aln. split; [done|]. apply (length_of_lookups _ _ _ Hrows).
Qed.

Lemma single_token_alignment_raises (sg : Q → Q) (row : vec) :
  build_alignment 1 (predict_durations sg [row]) = Raise IndexError.
Proof.
  unfold predict_durations. cbn [map squeeze tensor_map].
  unfold torch_round. rewrite clamp_min_inject_Z.
  set (z := Z.max 1 _). assert (1 ≤ z) as Hz by (subst z; lia).
  unfold build_alignment, tensor_sum. cbn [tensor_elems].
  replace (py_int (Qsum [inject_Z z])) with z.
  - rewrite (proj2 (Z.ltb_ge _ _)) by lia. unfold zeros.
    rewrite length_replicate. done.
  - unfold Qsum, py_int. simpl. rewrite Z.quot_1_r. lia.
Qed.

(** * Further properties *)

(** ** Expansion of token features to frames (lines 302 and 311) *)

Lemma lookup_lincomb (n : nat) (coeffs : vec) (rows : mat) (j : nat) :
  Forall (λ row : vec, length row = n) rows → (j < n)%nat →
  lincomb n coeffs rows !! j = Some (dot coeffs (column j rows)).
Proof.
  intros Hrows Hj. revert coeffs.
  induction Hrows as [|row rows Hrow Hrows IH]; intros coeffs.
  - destruct coeffs; unfold lincomb; simpl; by rewrite lookup_replicate_2.
  - destruct coeffs as [|c coeffs].
    + unfold lincomb. simpl. by rewrite lookup_replicate_2.
    + unfold lincomb, dot, column in *. cbn [zip zip_with foldr fmap list_fmap fst snd].
      rewrite lookup_zip_with.
      destruct (lookup_lt_is_Some_2 row j) as [x Hx]; [lia|].
      change (scale c row) with (Qmult c <$> row).
      rewrite list_lookup_fmap, Hx. cbn. rewrite IH. done.
Qed.

Lemma dot_zero (cs es : vec) :
  (∀ t e, es !! t = Some e → e = 0%Q) → (dot cs es == 0)%Q.
Proof.
  revert cs. induction es as [|e es IH]; intros cs He.
  - destruct cs; reflexivity.
  - destruct cs as [|c cs]; [reflexivity|].
    unfold dot. cbn [zip zip_with foldr fst snd]. fold (dot cs es).
    rewrite (He 0%nat e eq_refl), IH; [ring|].
    intros t e' Ht. apply (He (S t) e' Ht).
Qed.

(** A column with a single one picks the coefficient at its position. *)
Lemma dot_one_hot (cs es : vec) (i : nat) (x : Q) :
  (∀ t e, es !! t = Some e → e = if bool_decide (t = i) then 1%Q else 0%Q) →
  (i < length es)%nat → cs !! i = Some x →
  (dot cs es == x)%Q.
Proof.
  revert cs i. induction es as [|e es IH]; intros cs i He Hi Hx; [simpl in Hi; lia|].
  destruct cs as [|c cs]; [done|].
  unfold dot. cbn [zip zip_with foldr fst snd]. fold (dot cs es).
  destruct i as [|i].
  - injection Hx as ->. rewrite (He 0%nat e eq_refl). simpl.
    rewrite dot_zero; [ring|].
    intros t e' Ht. by rewrite (He (S t) e' Ht).
  - rewrite (He 0%nat e eq_refl). simpl.
    rewrite (IH cs i); [ring| |simpl in Hi; lia|done].
    intros t e' Ht. rewrite (He (S t) e' Ht).
    repeat case_bool_decide; (done || lia).
Qed.

Lemma cursor_le_total (durs : list Z) (i : nat) :
  Forall (λ d, 0 ≤ d) durs → cursor durs i ≤ Zsum durs.
Proof.
  intros Hpos. rewrite <- (cursor_ge durs (i + length durs)) by lia.
  apply cursor_mono; [done | lia].
Qed.

Lemma Forall_pos_nonneg (durs : list Z) :
  Forall (λ d, 0 < d) durs → Forall (λ d, 0 ≤ d) durs.
Proof. intros H. eapply Forall_impl; [done|]. simpl. lia. Qed.

Lemma forallb_bool_decide {A : Type} (P : A → Prop) `{∀ x, Decision (P x)}
    (l : list A) :
  forallb (λ x, bool_decide (P x)) l = true ↔ Forall P l.
Proof.
  induction l as [|x l IH]; simpl.
  - split; [constructor | done].
  - rewrite andb_true_iff, IH, Forall_cons, bool_decide_eq_true. done.
Qed.

(** The rows of the alignment of [durs], and its shape. *)
Lemma build_alignment_shape (durs : list Z) (aln : mat) :
  Forall (λ d, 0 ≤ d) durs →
  build_alignment (length durs) (T1 (inject_Z <$> durs)) = Return aln →
  length aln = length durs ∧
  Forall (λ row : vec, length row = Z.to_nat (Zsum durs)) aln.
Proof.
  intros Hnn Hrun.
  destruct (build_alignment_rows durs Hnn) as (aln' & Hrun' & Hrows).
  rewrite Hrun in Hrun'. injection Hrun' as <-. split.
  - apply (length_of_lookups _ _ _ Hrows).
  - apply Forall_lookup. intros r row Hrow. rewrite Hrows in Hrow.
    case_bool_decide; [|done]. injection Hrow as <-.
    by rewrite length_slice_fill, length_replicate.
Qed.

(** Column [j] of the alignment has its single one at the token that owns
    frame [j]. *)
Lemma alignment_column_one_hot (durs : list Z) (aln : mat) (i j : nat) (d : Z) :
  Forall (λ d, 0 < d) durs →
  build_alignment (length durs) (T1 (inject_Z <$> durs)) = Return aln →
  durs !! i = Some d →
  cursor durs i ≤ Z.of_nat j < cursor durs i + d →
  ∀ t e, column j aln !! t = Some e →
         e = if bool_decide (t = i) then 1%Q else 0%Q.
Proof.
  intros Hpos Hrun Hd Hj t e He.
  pose proof (Forall_pos_nonneg _ Hpos) as Hnn.
  destruct (build_alignment_shape durs aln Hnn Hrun) as [Hlen Hwidth].
  assert (Z.of_nat j < Zsum durs) as Hjt.
  { pose proof (cursor_le_total durs (S i) Hnn) as Hle.
    rewrite (cursor_S _ _ _ Hd) in Hle. lia. }
  unfold column in He. rewrite list_lookup_fmap in He.
  destruct (aln !! t) as [row|] eqn:Hrow; [|done]. injection He as <-.
  destruct (lookup_lt_is_Some_2 durs t) as [d' Hd'].
  { apply lookup_lt_Some in Hrow. lia. }
  pose proof (build_alignment_entry durs aln t j d' Hnn Hrun Hd' Hjt) as Hentry.
  unfold entry in Hentry. rewrite Hrow in Hentry. simpl in Hentry.
  rewrite Hentry. simpl.
  repeat case_bool_decide; try done.
  - exfalso. by eapply (cursor_disjoint durs t i d' d (Z.of_nat j)) in Hpos.
  - subst t. rewrite Hd in Hd'. injection Hd' as <-. lia.
Qed.

Lemma length_lincomb (n : nat) (coeffs : vec) (rows : mat) :
  Forall (λ row : vec, length row = n) rows →
  length (lincomb n coeffs rows) = n.
Proof.
  intros Hrows. revert coeffs.
  induction Hrows as [|row rows Hrow Hrows IH]; intros [|c coeffs];
    unfold lincomb; simpl; rewrite ?length_replicate; try done.
  rewrite length_zip_with, length_scale, Hrow.
  unfold lincomb in IH. rewrite IH. lia.
Qed.

Lemma width_alignment (durs : list Z) (aln : mat) :
  Forall (λ d, 0 ≤ d) durs →
  build_alignment (length durs) (T1 (inject_Z <$> durs)) = Return aln →
  width aln = Z.to_nat (Zsum durs).
Proof.
  intros Hnn Hrun.
  destruct (build_alignment_shape durs aln Hnn Hrun) as [Hlen Hwidth].
  destruct aln as [|row0 aln'].
  - by destruct durs.
  - by apply Forall_cons in Hwidth as [Hw0 _].
Qed.

(** The product of a feature matrix (one row per channel, one column per
    token) with the alignment of [durs]. *)
Lemma expand_features (durs : list Z) (feats aln : mat) :
  Forall (λ d, 0 < d) durs →
  Forall (λ row : vec, length row = length durs) feats →
  build_alignment (length durs) (T1 (inject_Z <$> durs)) = Return aln →
  ∃ out,
    matmul feats aln = Return out ∧
    length out = length feats ∧
    Forall (λ row : vec, length row = Z.to_nat (Zsum durs)) out ∧
    ∀ c feat i d x j,
      feats !! c = Some feat → feat !! i = Some x → durs !! i = Some d →
      cursor durs i ≤ Z.of_nat j < cursor durs i + d →
      ∃ y, entry out c j = Some y ∧ (y == x)%Q.
Proof.
  intros Hpos Hfeats Hrun.
  pose proof (Forall_pos_nonneg _ Hpos) as Hnn.
  destruct (build_alignment_shape durs aln Hnn Hrun) as [Hlen Hwidth].
  pose proof (width_alignment durs aln Hnn Hrun) as Hw.
  unfold matmul.
  rewrite (proj2 (forallb_bool_decide (λ row : vec, length row = length aln) feats))
    by (by rewrite Hlen).
  rewrite Hw. eexists. split; [done|]. split; [by rewrite length_map|]. split.
  - apply Forall_forall. intros row Hin.
    apply list_elem_of_fmap in Hin as (feat & -> & Hfeat).
    by apply length_lincomb.
  - intros c feat i d x j Hfeat Hx Hd Hj.
    assert (Z.of_nat j < Zsum durs) as Hjt.
    { pose proof (cursor_le_total durs (S i) Hnn) as Hle.
      rewrite (cursor_S _ _ _ Hd) in Hle. lia. }
    exists (dot feat (column j aln)). split.
    + unfold entry.
      change (map ?f feats) with (f <$> feats).
      rewrite list_lookup_fmap, Hfeat. simpl.
      apply lookup_lincomb; [done | lia].
    + apply (dot_one_hot _ _ i); [| |done].
      * by apply (alignment_column_one_hot durs aln i j d).
      * unfold column. rewrite length_fmap, Hlen. by eapply lookup_lt_Some.
Qed.

Lemma lookup_transpose (d : mat) (c : nat) :
  (c < width d)%nat → transpose d !! c = Some (column c d).
Proof.
  intros Hc. unfold transpose.
  change (map ?f ?l) with (f <$> l).
  rewrite list_lookup_fmap, lookup_seq_lt by done. done.
Qed.

Lemma Forall_length_transpose (d : mat) :
  Forall (λ row : vec, length row = length d) (transpose d).
Proof.
  apply Forall_forall. intros row Hin. unfold transpose in Hin.
  apply list_elem_of_fmap in Hin as (c & -> & _). by rewrite length_map.
Qed.

(** X4.  Multiplying a feature matrix by the alignment matrix repeats the
    feature vector of token [i] on each of its frames
    [cursor_i, cursor_i + duration[i]): this holds for [asr], the expanded
    text-encoder features, and for [en], the expanded predictor features
    (which are transposed first). *)
Theorem aligned_features_repeat_tokens (durs : list Z) (t_en d : mat) :
  Forall (λ dur, 0 < dur) durs →
  Forall (λ row : vec, length row = length durs) t_en →
  length d = length durs →
  Forall (λ row : vec, length row = width d) d →
  ∃ pred_aln_trg asr en,
    build_alignment (length durs) (T1 (inject_Z <$> durs)) = Return pred_aln_trg ∧
    matmul t_en pred_aln_trg = Return asr ∧
    matmul (transpose d) pred_aln_trg = Return en ∧
    length asr = length t_en ∧ length en = width d ∧
    Forall (λ row : vec, length row = Z.to_nat (Zsum durs)) (asr ++ en) ∧
    (∀ c feat i dur x j,
       t_en !! c = Some feat → feat !! i = Some x → durs !! i = Some dur →
       cursor durs i ≤ Z.of_nat j < cursor durs i + dur →
       ∃ y, entry asr c j = Some y ∧ (y == x)%Q) ∧
    (∀ c row i dur x j,
       d !! i = Some row → row !! c = Some x → durs !! i = Some dur →
       cursor durs i ≤ Z.of_nat j < cursor durs i + dur →
       ∃ y, entry en c j = Some y ∧ (y == x)%Q).
Proof.
  intros Hpos Ht Hd Hrect.
  destruct (build_alignment_rows durs (Forall_pos_nonneg _ Hpos))
    as (aln & Hrun & _).
  destruct (expand_features durs t_en aln Hpos Ht Hrun)
    as (asr & Hasr & Hlasr & Hwasr & Heasr).
  destruct (expand_features durs (transpose d) aln Hpos) as
    (en & Hen & Hlen & Hwen & Heen); [|done|].
  { rewrite <- Hd. apply Forall_length_transpose. }
  exists aln, asr, en. split_and!; try done.
  - rewrite Hlen. unfold transpose. by rewrite length_map, length_seq.
  - by apply Forall_app.
  - intros c row i dur x j Hrow Hx Hdur Hj.
    assert (c < width d)%nat as Hc.
    { rewrite Forall_lookup in Hrect. rewrite <- (Hrect i row Hrow).
      by eapply lookup_lt_Some. }
    apply (Heen c (column c d) i dur x j); try done.
    + by apply lookup_transpose.
    + unfold column. by rewrite list_lookup_fmap, Hrow; simpl; rewrite Hx.
Qed.

Lemma aligned_features_repeat_tokens_witness :
  ∃ pred_aln_trg asr en,
    build_alignment 3 (T1 [2; 3; 1]%Q) = Return pred_aln_trg ∧
    matmul [[0; 5; 7]; [1; 1; 1]]%Q pred_aln_trg = Return asr ∧
    matmul (transpose [[1; 2]; [3; 4]; [5; 6]]%Q) pred_aln_trg = Return en ∧
    length asr = 2%nat ∧ length en = 2%nat.
Proof.
  destruct (aligned_features_repeat_tokens [2; 3; 1]
              [[0; 5; 7]; [1; 1; 1]]%Q [[1; 2]; [3; 4]; [5; 6]]%Q)
    as (aln & asr & en & H1 & H2 & H3 & H4 & H5 & _).
  - repeat constructor.
  - repeat constructor.
  - reflexivity.
  - repeat constructor.
  - exists aln, asr, en. exact (conj H1 (conj H2 (conj H3 (conj H4 H5)))).
Defined.

(** ** The one-frame shift after the expansion (lines 302-316) *)

Lemma shifted_expand_features (durs : list Z) (feats : mat) :
  Forall (λ dur, 0 < dur) durs → durs ≠ [] →
  Forall (λ row : vec, length row = length durs) feats →
  ∃ aln out out',
    build_alignment (length durs) (T1 (inject_Z <$> durs)) = Return aln ∧
    matmul feats aln = Return out ∧
    hifigan_shift "hifigan" out = Return out' ∧
    (∀ c feat x,
       feats !! c = Some feat → feat !! 0%nat = Some x →
       ∃ y, entry out' c 0 = Some y ∧ (y == x)%Q) ∧
    (∀ c feat i dur x j,
       feats !! c = Some feat → feat !! i = Some x → durs !! i = Some dur →
       cursor durs i ≤ Z.of_nat j < cursor durs i + dur →
       Z.of_nat (S j) < Zsum durs →
       ∃ y, entry out' c (S j) = Some y ∧ (y == x)%Q).
Proof.
  intros Hpos Hne Hfeats.
  pose proof (Forall_pos_nonneg _ Hpos) as Hnn.
  destruct (build_alignment_rows durs Hnn) as (aln & Hrun & _).
  destruct (expand_features durs feats aln Hpos Hfeats Hrun)
    as (out & Hout & Hlout & Hwout & Heout).
  assert (0 < Zsum durs) as Htotal.
  { destruct durs as [|d0 durs']; [done|].
    apply Forall_cons in Hpos as [Hd0 Hpos'].
    pose proof (Zsum_nonneg durs' (Forall_pos_nonneg _ Hpos')). simpl. lia. }
  destruct (mapM_shift_row out) as (out' & Hshift & _ & Hrows).
  { eapply Forall_impl; [exact Hwout|]. intros row Hrow ->. simpl in Hrow. lia. }
  exists aln, out, out'. split_and!; try done.
  - intros c feat x Hfeat Hx.
    destruct durs as [|d0 durs'] eqn:Hdurs; [done|]. rewrite <- Hdurs in *.
    assert (durs !! 0%nat = Some d0) as Hd0 by (by rewrite Hdurs).
    destruct (Heout c feat 0%nat d0 x 0%nat Hfeat Hx Hd0) as (y & Hy & Hyx).
    { rewrite cursor_0. apply (Forall_lookup_1 _ _ _ _ Hpos) in Hd0. simpl. lia. }
    exists y. split; [|done]. unfold entry in *.
    destruct (out !! c) as [row|] eqn:Hrow; [|done].
    destruct (Hrows c row Hrow) as (row' & -> & _ & H0 & _). simpl in *.
    by rewrite H0.
  - intros c feat i dur x j Hfeat Hx Hdur Hj HSj.
    destruct (Heout c feat i dur x j Hfeat Hx Hdur Hj) as (y & Hy & Hyx).
    exists y. split; [|done]. unfold entry in *.
    destruct (out !! c) as [row|] eqn:Hrow; [|done].
    destruct (Hrows c row Hrow) as (row' & -> & _ & _ & Hi). simpl in *.
    rewrite Hi; [by replace (S j - 1)%nat with j by lia|].
    rewrite Forall_lookup in Hwout. rewrite (Hwout c row Hrow). lia.
Qed.

(** X5.  With the decoder type ["hifigan"] every token reaches the decoder
    one frame late: frame 0 still shows token 0, and frame [j + 1] shows
    the token that owns frame [j].  Token 0 thus gains a frame and the last
    token loses one. *)
Theorem hifigan_delays_tokens (durs : list Z) (feats : mat) :
  Forall (λ dur, 0 < dur) durs → durs ≠ [] →
  Forall (λ row : vec, length row = length durs) feats →
  ∃ pred_aln_trg asr asr_new,
    build_alignment (length durs) (T1 (inject_Z <$> durs)) = Return pred_aln_trg ∧
    matmul feats pred_aln_trg = Return asr ∧
    hifigan_shift "hifigan" asr = Return asr_new ∧
    (∀ c feat x,
       feats !! c = Some feat → feat !! 0%nat = Some x →
       ∃ y, entry asr_new c 0 = Some y ∧ (y == x)%Q) ∧
    (∀ c feat i dur x j,
       feats !! c = Some feat → feat !! i = Some x → durs !! i = Some dur →
       cursor durs i ≤ Z.of_nat j < cursor durs i + dur →
       Z.of_nat (S j) < Zsum durs →
       ∃ y, entry asr_new c (S j) = Some y ∧ (y == x)%Q).
Proof. apply shifted_expand_features. Qed.

Lemma hifigan_delays_tokens_witness :
  ∃ pred_aln_trg asr asr_new,
    build_alignment 3 (T1 [2; 3; 1]%Q) = Return pred_aln_trg ∧
    matmul [[0; 5; 7]; [1; 1; 1]]%Q pred_aln_trg = Return asr ∧
    hifigan_shift "hifigan" asr = Return asr_new.
Proof.
  destruct (hifigan_delays_tokens [2; 3; 1] [[0; 5; 7]; [1; 1; 1]]%Q)
    as (aln & asr & asr_new & H1 & H2 & H3 & _).
  - repeat constructor.
  - discriminate.
  - repeat constructor.
  - exists aln, asr, asr_new. exact (conj H1 (conj H2 H3)).
Defined.

(** X6.  With the decoder type ["hifigan"], when there are two tokens or
    more and the last one lasts a single frame, no frame given to the
    decoder shows the last token: every frame shows one of the tokens
    before it. *)
Theorem hifigan_drops_one_frame_last_token (durs : list Z) (feats : mat) :
  Forall (λ dur, 0 < dur) durs → durs ≠ [] →
  Forall (λ row : vec, length row = S (length durs)) feats →
  ∃ pred_aln_trg asr asr_new,
    build_alignment (S (length durs)) (T1 (inject_Z <$> (durs ++ [1])))
      = Return pred_aln_trg ∧
    matmul feats pred_aln_trg = Return asr ∧
    hifigan_shift "hifigan" asr = Return asr_new ∧
    ∀ c feat j,
      feats !! c = Some feat → Z.of_nat j < Zsum (durs ++ [1]) →
      ∃ i x y, (i < length durs)%nat ∧ feat !! i = Some x ∧
               entry asr_new c j = Some y ∧ (y == x)%Q.
Proof.
  intros Hpos Hne Hfeats.
  assert (Forall (λ dur, 0 < dur) (durs ++ [1])) as Hpos'.
  { apply Forall_app. split; [done|]. repeat constructor. }
  assert (length (durs ++ [1]) = S (length durs)) as Hlen.
  { rewrite length_app. simpl. lia. }
  destruct (shifted_expand_features (durs ++ [1]) feats Hpos')
    as (aln & out & out' & Hrun & Hout & Hshift & H0 & HS).
  { by destruct durs. }
  { by rewrite Hlen. }
  rewrite Hlen in Hrun. exists aln, out, out'. split_and!; try done.
  intros c feat j Hfeat Hj.
  assert (length feat = S (length durs)) as Hlf.
  { rewrite Forall_lookup in Hfeats. by apply (Hfeats c). }
  rewrite Zsum_app in Hj. simpl in Hj.
  destruct j as [|j].
  - destruct (lookup_lt_is_Some_2 feat 0) as [x Hx]; [lia|].
    destruct (H0 c feat x Hfeat Hx) as (y & Hy & Hyx).
    exists 0%nat, x, y. split_and!; try done.
    destruct durs; [done|]. simpl. lia.
  - destruct (cursor_locate durs (Z.of_nat j) Hpos) as (i & dur & Hdur & Hin); [lia|].
    pose proof (lookup_lt_Some _ _ _ Hdur) as Hi.
    destruct (lookup_lt_is_Some_2 feat i) as [x Hx]; [lia|].
    destruct (HS c feat i dur x j Hfeat Hx) as (y & Hy & Hyx).
    + by rewrite lookup_app_l.
    + unfold cursor in *. by rewrite take_app_le by lia.
    + rewrite Zsum_app. simpl. lia.
    + by exists i, x, y.
Qed.

Lemma hifigan_drops_one_frame_last_token_witness :
  ∃ pred_aln_trg asr asr_new,
    build_alignment 3 (T1 [2; 3; 1]%Q) = Return pred_aln_trg ∧
    matmul [[0; 5; 7]; [1; 1; 1]]%Q pred_aln_trg = Return asr ∧
    hifigan_shift "hifigan" asr = Return asr_new ∧
    asr_new = [[0; 0; 0; 5; 5; 5]; [1; 1; 1; 1; 1; 1]]%Q.
Proof.
  destruct (hifigan_drops_one_frame_last_token [2; 3] [[0; 5; 7]; [1; 1; 1]]%Q)
    as (aln & asr & asr_new & H1 & H2 & H3 & _).
  - repeat constructor.
  - discriminate.
  - repeat constructor.
  - exists aln, asr, asr_new. split; [exact H1|]. split; [exact H2|].
    split; [exact H3|].
    vm_compute in H1. injection H1 as <-.
    vm_compute in H2. injection H2 as <-.
    vm_compute in H3. injection H3 as <-. reflexivity.
Defined.

(** ** From duration scores to the alignment (lines 293-300) *)



(** ** A text without phoneme tokens (lines 258-300, 110-120) *)

(** X8.  When the front end yields no token (as for an empty text), the
    only token is the leading 0, the duration tensor is 0-dimensional and
    [inference] raises [IndexError] in the alignment loop; [synthesize]
    raises it too and returns neither [True] nor [False]. *)
Theorem tokenless_text_raises (M : model) (noise : vec) (self : engine)
    (text : string) (t_en bert_dur d_en : mat) (s_pred : vec) (st : styles)
    (d x : mat) (row : vec) :
  frontend M text = Return [] →
  text_encoder M [0] 1%nat [false] = Return t_en →
  bert M [0] [1] = Return bert_dur →
  bert_encoder M bert_dur = Return d_en →
  sampler M noise bert_dur (embedding_scale self) (ref_s self)
          (diffusion_steps self) = Return s_pred →
  blend_styles (alpha self) (beta self) s_pred (ref_s self) = Return st →
  predictor_text_encoder M (transpose d_en) (st_s st) 1%nat [false] = Return d →
  predictor_lstm M d = Return x →
  duration_proj M x = Return [row] →
  inference M noise self text (alpha self) (beta self) (diffusion_steps self)
            (embedding_scale self) = Raise IndexError ∧
  synthesize M noise self text = Raise IndexError.
Proof.
  intros Hf Ht Hb He Hs Hbl Hp Hl Hd.
  assert (inference M noise self text (alpha self) (beta self)
            (diffusion_steps self) (embedding_scale self) = Raise IndexError)
    as Hinf.
  { unfold inference, inference_waveform. rewrite Hf, bind_Return_l.
    cbn [length length_to_mask seq map]. rewrite bool_decide_false by lia.
    cbn [map]. rewrite Ht, bind_Return_l, Hb, bind_Return_l, He, bind_Return_l.
    rewrite Hs, bind_Return_l, Hbl, bind_Return_l, Hp, bind_Return_l.
    rewrite Hl, bind_Return_l, Hd, bind_Return_l.
    by rewrite single_token_alignment_raises. }
  split; [done|]. unfold synthesize, synthesize_with. by rewrite Hinf.
Qed.

Lemma tokenless_text_raises_witness :
  synthesize (with_frontend (Sample.toy "hifigan" 40) (λ _, Return []))
             Sample.sample Sample.self "" = Raise IndexError.
Proof.
  edestruct (tokenless_text_raises
               (with_frontend (Sample.toy "hifigan" 40) (λ _, Return []))
               Sample.sample Sample.self "") as [_ Hsyn];
    [reflexivity | reflexivity | reflexivity | reflexivity | reflexivity
    | vm_compute; reflexivity | reflexivity | reflexivity
    | vm_compute; reflexivity | exact Hsyn].
Defined.

(** ** What [synthesize] enqueues (lines 110-120, 321-323) *)




(** ** The sample quantiser (line 116) *)

Lemma py_int_opp (x : Q) : py_int (- x) = - py_int x.
Proof. destruct x as [p q]. unfold py_int. simpl. apply Zquot_opp_l. Qed.

Lemma Zle_of_Qlt_succ (a b : Z) : (inject_Z a < inject_Z b + 1)%Q → a ≤ b.
Proof.
  intros H. assert (inject_Z a < inject_Z (b + 1))%Q as H'.
  { rewrite inject_Z_plus. exact H. }
  rewrite <- Zlt_Qlt in H'. lia.
Qed.

Lemma py_int_mono (x y : Q) : (x <= y)%Q → py_int x ≤ py_int y.
Proof.
  intros Hxy.
  destruct (py_int_truncates x) as [Hxp Hxn].
  destruct (py_int_truncates y) as [Hyp Hyn].
  destruct (Qlt_le_dec x 0) as [Hx|Hx], (Qlt_le_dec y 0) as [Hy|Hy].
  - destruct Hxn as [_ H1]; [lra|]. destruct Hyn as [H2 _]; [lra|].
    apply Zle_of_Qlt_succ. lra.
  - destruct Hxn as [_ H1]; [lra|]. destruct Hyp as [_ H2]; [lra|].
    assert (py_int x ≤ 0).
    { apply Zle_of_Qlt_succ. change (inject_Z 0) with 0%Q. lra. }
    assert (0 ≤ py_int y); [|lia].
    apply Zle_of_Qlt_succ. change (inject_Z 0) with 0%Q. lra.
  - lra.
  - destruct Hxp as [H1 _]; [lra|]. destruct Hyp as [_ H2]; [lra|].
    apply Zle_of_Qlt_succ. lra.
Qed.

Lemma to_int16_unit (x : Q) :
  (-1 <= x)%Q → (x <= 1)%Q →
  to_int16 (x * 32767) = py_int (x * 32767) ∧
  -32767 ≤ py_int (x * 32767) ≤ 32767.
Proof.
  intros Hlo Hhi.
  pose proof (py_int_bounds (x * 32767) 32767 ltac:(lia)) as Hb.
  change (inject_Z 32767) with 32767%Q in Hb.
  destruct Hb; [lra | lra |]. split; [|lia].
  apply to_int16_in_range. lia.
Qed.

(** X10.  On samples in [-1, 1] the 16-bit quantiser is monotone and odd,
    maps 0 to 0 and stays within -32767 .. 32767: the value -32768 is never
    produced and no sample changes sign. *)
Theorem quantiser_monotone_odd (x y : Q) :
  (-1 <= x)%Q → (x <= y)%Q → (y <= 1)%Q →
  to_int16 (x * 32767) ≤ to_int16 (y * 32767) ∧
  -32767 ≤ to_int16 (x * 32767) ≤ 32767 ∧
  to_int16 (- x * 32767) = - to_int16 (x * 32767) ∧
  to_int16 (0 * 32767) = 0 ∧
  ((0 <= x)%Q → 0 ≤ to_int16 (x * 32767)) ∧
  ((x <= 0)%Q → to_int16 (x * 32767) ≤ 0).
Proof.
  intros Hx Hxy Hy.
  destruct (to_int16_unit x) as [Hex Hrx]; [lra | lra |].
  destruct (to_int16_unit y) as [Hey Hry]; [lra | lra |].
  destruct (to_int16_unit (- x)) as [Hen Hrn]; [lra | lra |].
  assert (py_int (- x * 32767) = - py_int (x * 32767)) as Hopp.
  { rewrite <- py_int_opp. destruct x as [p q]. unfold py_int. simpl.
    f_equal. lia. }
  rewrite Hex, Hey, Hen. split_and!; try lia.
  - apply py_int_mono. lra.
  - done.
  - intros H0. change 0 with (py_int (0 * 32767)). apply py_int_mono. lra.
  - intros H0. change 0 with (py_int (0 * 32767)). apply py_int_mono. lra.
Qed.

Lemma quantiser_monotone_odd_witness :
  to_int16 (-(1 # 2) * 32767) ≤ to_int16 ((1 # 3) * 32767) ∧
  to_int16 (- -(1 # 2) * 32767) = - to_int16 (-(1 # 2) * 32767).
Proof.
  destruct (quantiser_monotone_odd (-(1 # 2)) (1 # 3))
    as (H1 & _ & H2 & _); [discriminate | discriminate | discriminate |].
  exact (conj H1 H2).
Defined.

(** ** Sizes accepted by the style blend (lines 283-288) *)

Lemma ew2_sizes (f : Q → Q → Q) (a b : vec) :
  (length a = length b ∨ length a = 1%nat ∨ length b = 1%nat →
     ∃ r, ew2 f a b = Return r ∧
          length r = if decide (length a = 1%nat) then length b else length a) ∧
  (length a ≠ length b → length a ≠ 1%nat → length b ≠ 1%nat →
     ew2 f a b = Raise RuntimeError).
Proof.
  unfold ew2. destruct (decide (length a = length b)) as [Heq|Hne].
  - split; [|done]. intros _. eexists. split; [done|].
    rewrite length_zip_with. case_decide; lia.
  - split.
    + intros [?|[Ha|Hb]]; [done| |].
      * destruct a as [|x [|??]]; try done. eexists. split; [done|].
        by rewrite length_map.
      * destruct b as [|y [|??]]; try done.
        destruct a as [|x [|x' a]]; try done; eexists; (split; [done|]);
          rewrite length_map; by case_decide.
    + intros _ Ha Hb.
      destruct a as [|x [|x' a]], b as [|y [|y' b]]; done.
Qed.

(** X11.  With a reference style of 256 entries the blend accepts a sample
    of 256 entries, and also one of 129 entries, whose single entry past
    index 128 is broadcast over the 128 reference entries; both styles then
    have 128 entries.  A sample of any other size is a [RuntimeError]. *)
Theorem blend_styles_sizes (alpha beta : Q) (s_pred ref_s : vec) :
  length ref_s = 256%nat →
  (length s_pred = 256%nat ∨ length s_pred = 129%nat →
     ∃ st, blend_styles alpha beta s_pred ref_s = Return st ∧
           length (st_ref st) = 128%nat ∧ length (st_s st) = 128%nat) ∧
  (length s_pred ≠ 256%nat → length s_pred ≠ 129%nat →
     blend_styles alpha beta s_pred ref_s = Raise RuntimeError).
Proof.
  intros Hr. unfold blend_styles.
  destruct (ew2_sizes Qplus (scale alpha (take 128 s_pred))
              (scale (1 - alpha) (take 128 ref_s))) as [Hok1 Hbad1].
  destruct (ew2_sizes Qplus (scale beta (drop 128 s_pred))
              (scale (1 - beta) (drop 128 ref_s))) as [Hok2 Hbad2].
  rewrite !length_scale, !length_take, !length_drop, Hr in *. split.
  - intros Hs.
    destruct Hok1 as (ref & -> & Hlr); [lia|].
    destruct Hok2 as (s & -> & Hls); [lia|].
    rewrite !bind_Return_l. eexists. split; [done|]. cbn [st_ref st_s].
    split; [rewrite Hlr | rewrite Hls]; repeat case_decide; lia.
  - intros H256 H129.
    destruct (decide (128 ≤ length s_pred ∨ length s_pred = 1)%nat) as [Hge|Hlt].
    + destruct Hok1 as (ref & -> & _); [lia|].
      rewrite bind_Return_l, Hbad2; [done|lia..].
    + by rewrite Hbad1 by lia.
Qed.

Lemma blend_styles_sizes_witness :
  (∃ st, blend_styles (3 # 10) (7 # 10) (replicate 129 1%Q) Sample.reference
           = Return st ∧
         length (st_ref st) = 128%nat ∧ length (st_s st) = 128%nat) ∧
  blend_styles (3 # 10) (7 # 10) (replicate 255 1%Q) Sample.reference
    = Raise RuntimeError.
Proof.
  split.
  - destruct (blend_styles_sizes (3 # 10) (7 # 10) (replicate 129 1%Q)
                Sample.reference) as [Hok _]; [reflexivity|].
    apply Hok. right. reflexivity.
  - destruct (blend_styles_sizes (3 # 10) (7 # 10) (replicate 255 1%Q)
                Sample.reference) as [_ Hbad]; [reflexivity|].
    apply Hbad; discriminate.
Defined.

(** ** Paths and device of the constructor (lines 70-74) *)



(** ** The padding mask (lines 232-235) *)

Lemma foldr_max_bound (l0 : Z) (ls : list Z) :
  Forall (λ len, len ≤ foldr Z.max l0 ls) (l0 :: ls) ∧
  foldr Z.max l0 ls ∈ l0 :: ls.
Proof.
  induction ls as [|l ls [IH1 IH2]]; simpl.
  - split; [repeat constructor; lia | apply elem_of_cons; by left].
  - apply Forall_cons in IH1 as [H0 Hls]. split.
    + repeat apply Forall_cons_2; [lia | lia |].
      eapply Forall_impl; [exact Hls|]. simpl. lia.
    + destruct (Z.max_spec l (foldr Z.max l0 ls)) as [[_ ->]|[_ ->]].
      * apply elem_of_cons in IH2 as [->|Hin];
          [apply elem_of_cons; by left | do 2 (apply elem_of_cons; right); done].
      * apply elem_of_cons. right. apply elem_of_cons. by left.
Qed.

Lemma mask_row (len bound : Z) :
  0 ≤ len ≤ bound →
  map (λ j, bool_decide (len < j + 1)) (seqZ 0 bound)
    = replicate (Z.to_nat len) false ++ replicate (Z.to_nat (bound - len)) true.
Proof.
  intros Hlen. apply list_eq. intros i.
  change (map ?f ?l) with (f <$> l). rewrite list_lookup_fmap.
  destruct (decide (Z.of_nat i < bound)) as [Hi|Hi].
  - rewrite lookup_seqZ_lt by done. simpl.
    destruct (decide (Z.of_nat i < len)) as [Hil|Hil].
    + rewrite lookup_app_l by (rewrite length_replicate; lia).
      rewrite lookup_replicate_2 by lia. by rewrite bool_decide_false by lia.
    + rewrite lookup_app_r by (rewrite length_replicate; lia).
      rewrite length_replicate, lookup_replicate_2 by lia.
      by rewrite bool_decide_true by lia.
  - rewrite lookup_seqZ_ge by lia. symmetry. apply lookup_ge_None_2.
    rewrite length_app, !length_replicate. lia.
Qed.

(** X1.  For a non-empty batch of non-negative lengths the padding mask
    has one row per sequence, as wide as the longest sequence; row [i] is
    [lengths[i]] times [False] followed by [True] up to that width.  For
    the single length that [inference] passes, the mask is all [False], so
    the attention mask given to the BERT encoder is all ones.  An empty
    batch is an error. *)
Theorem length_to_mask_pads_the_tail (lengths : list Z) :
  lengths ≠ [] → Forall (λ len, 0 ≤ len) lengths →
  (∃ mask bound,
     length_to_mask_batch lengths = Return mask ∧
     bound ∈ lengths ∧ Forall (λ len, len ≤ bound) lengths ∧
     length mask = length lengths ∧
     ∀ i len, lengths !! i = Some len →
       mask !! i = Some (replicate (Z.to_nat len) false ++
                         replicate (Z.to_nat (bound - len)) true)) ∧
  (∀ n : nat,
     length_to_mask_batch [Z.of_nat n] = Return [length_to_mask n] ∧
     length_to_mask n = replicate n false ∧
     map (λ b : bool, if b then 0 else 1) (length_to_mask n) = replicate n 1) ∧
  length_to_mask_batch [] = Raise RuntimeError.
Proof.
  intros Hne Hnn. split_and!; [| |done].
  - destruct lengths as [|l0 ls]; [done|].
    destruct (foldr_max_bound l0 ls) as [Hmax Hin].
    set (bound := foldr Z.max l0 ls) in *.
    assert (0 ≤ bound) as Hb.
    { apply Forall_cons in Hnn as [H0 _]. apply Forall_cons in Hmax as [H1 _]. lia. }
    exists (map (λ len, map (λ j, bool_decide (len < j + 1)) (seqZ 0 bound))
                (l0 :: ls)), bound.
    split_and!; try done.
    + unfold length_to_mask_batch. fold bound.
      by rewrite (proj2 (Z.ltb_ge _ _)) by done.
    + by rewrite length_map.
    + intros i len Hi. change (map ?f ?l) with (f <$> l) at 1.
      rewrite list_lookup_fmap, Hi. simpl. f_equal. apply mask_row.
      rewrite Forall_lookup in Hnn, Hmax.
      specialize (Hnn i len Hi). specialize (Hmax i len Hi). simpl in *. lia.
  - intros n.
    assert (length_to_mask n = replicate n false) as Hmask.
    { unfold length_to_mask. apply list_eq. intros i.
      change (map ?f ?l) with (f <$> l). rewrite list_lookup_fmap.
      destruct (decide (i < n)%nat) as [Hi|Hi].
      - rewrite lookup_seq_lt, lookup_replicate_2 by done. simpl.
        by rewrite bool_decide_false by lia.
      - rewrite lookup_seq_ge by lia. symmetry. apply lookup_replicate_None. lia. }
    split_and!; [|done|].
    + unfold length_to_mask_batch. simpl.
      rewrite (proj2 (Z.ltb_ge _ _)) by lia.
      rewrite mask_row by lia. rewrite Hmask, Nat2Z.id, Z.sub_diag. simpl.
      by rewrite app_nil_r.
    + rewrite Hmask. clear Hmask. induction n as [|n IH]; [done|].
      simpl. by rewrite IH.
Qed.

Lemma length_to_mask_pads_the_tail_witness :
  length_to_mask_batch [2; 4; 1]
    = Return [[false; false; true; true];
              [false; false; false; false];
              [false; true; true; true]].
Proof.
  destruct (length_to_mask_pads_the_tail [2; 4; 1])
    as [(mask & bound & Hrun & _) _].
  - discriminate.
  - repeat constructor; discriminate.
  - rewrite Hrun. vm_compute in Hrun. injection Hrun as <-. reflexivity.
Defined.

(** ** Colliding keys in the checkpoint fallback (lines 186-190) *)

Section DictLookup.
Context {V : Type}.
Implicit Types (d sd acc : dict V) (k name : string) (v : V).

Lemma dict_get_set d k v name :
  dict_get (dict_set d k v) name
    = if decide (k = name) then Some v else dict_get d name.
Proof.
  induction d as [|[k' v'] d IH]; simpl.
  - repeat case_decide; congruence.
  - destruct (decide (k' = k)) as [->|Hne]; simpl.
    + repeat case_decide; congruence.
    + rewrite IH. repeat case_decide; congruence.
Qed.

Lemma NoDup_dict_set d k v :
  NoDup (dict_keys d) → NoDup (dict_keys (dict_set d k v)).
Proof.
  unfold dict_keys. induction d as [|[k' v'] d IH]; simpl; intros Hnd.
  - apply NoDup_singleton.
  - apply NoDup_cons in Hnd as [Hk' Hnd].
    destruct (decide (k' = k)) as [->|Hne]; simpl.
    + by apply NoDup_cons.
    + apply NoDup_cons. split; [|by apply IH].
      intros Hin. apply (elem_of_dict_keys_set d k v k') in Hin as [Hin|Heq];
        [done | congruence].
Qed.

Lemma length_dict_set d k v :
  (length d ≤ length (dict_set d k v) ≤ S (length d))%nat.
Proof.
  induction d as [|[k' v'] d IH]; simpl; [lia|].
  case_decide; simpl; lia.
Qed.

Lemma dict_get_app d1 d2 name :
  dict_get (d1 ++ d2) name
    = match dict_get d1 name with Some v => Some v | None => dict_get d2 name end.
Proof.
  induction d1 as [|[k v] d1 IH]; simpl; [done|]. by case_decide.
Qed.

Lemma strip_acc_facts sd acc name :
  NoDup (dict_keys acc) →
  NoDup (dict_keys
           (foldl (λ new kv, dict_set new (str_drop 7 kv.1) kv.2) acc sd)) ∧
  (length (foldl (λ new kv, dict_set new (str_drop 7 kv.1) kv.2) acc sd)
     ≤ length acc + length sd)%nat ∧
  dict_get (foldl (λ new kv, dict_set new (str_drop 7 kv.1) kv.2) acc sd) name =
    match dict_get (reverse ((λ kv, (str_drop 7 kv.1, kv.2)) <$> sd)) name with
    | Some v => Some v
    | None => dict_get acc name
    end.
Proof.
  revert acc. induction sd as [|[k v] sd IH]; intros acc Hnd.
  - simpl. split_and!; [done | lia | done].
  - destruct (IH (dict_set acc (str_drop 7 k) v)) as (IH1 & IH2 & IH3);
      [by apply NoDup_dict_set|].
    cbn [foldl fst snd]. rewrite fmap_cons. cbn [fst snd length].
    split_and!; [done | |].
    + pose proof (length_dict_set acc (str_drop 7 k) v). lia.
    + rewrite IH3, reverse_cons, dict_get_app, dict_get_set. simpl.
      destruct (dict_get (reverse _) name); [done|]. by case_decide.
Qed.
End DictLookup.

Lemma str_drop_short (n : nat) (k : string) :
  (String.length k ≤ n)%nat → str_drop n k = EmptyString.
Proof.
  revert k. induction n as [|n IH]; intros [|a k] Hk; simpl in *; try done; [lia|].
  apply IH. lia.
Qed.

(** X2.  Whatever the keys of the state dictionary, the dictionary rebuilt
    by the fallback has no duplicate key and no more entries than the
    original; when several keys agree after their first 7 characters are
    removed, the rebuilt entry holds the weight of the last of them; and a
    key of at most 7 characters becomes the empty key. *)
Theorem strip_module_prefix_last_wins {V : Type} (state_dict : dict V) :
  NoDup (dict_keys (strip_module_prefix state_dict)) ∧
  (length (strip_module_prefix state_dict) ≤ length state_dict)%nat ∧
  (∀ name,
     dict_get (strip_module_prefix state_dict) name
       = dict_get (reverse ((λ kv, (str_drop 7 kv.1, kv.2)) <$> state_dict)) name) ∧
  (∀ k, k ∈ dict_keys state_dict → (String.length k ≤ 7)%nat →
        EmptyString ∈ dict_keys (strip_module_prefix state_dict)).
Proof.
  unfold strip_module_prefix. split_and!.
  - apply (strip_acc_facts state_dict [] EmptyString). constructor.
  - destruct (strip_acc_facts state_dict [] EmptyString) as (_ & H & _);
      [constructor|]. exact H.
  - intros name.
    destruct (strip_acc_facts state_dict [] name) as (_ & _ & H); [constructor|].
    rewrite H. by destruct (dict_get (reverse _) name).
  - intros k Hk Hlen. apply elem_of_strip_keys_acc. right.
    exists k. split; [done|]. symmetry. by apply str_drop_short.
Qed.

(** ** The loop over the sub-models (lines 179-191) *)

(** X3.  The checkpoint loop either loads every sub-model or raises: it
    raises exactly when some sub-model present in the checkpoint fails both
    the strict load and the non-strict load of the stripped dictionary.
    When it returns, the sub-models keep their names and order, those
    absent from the checkpoint are untouched, and each other one is what
    its own load left. *)
Theorem load_checkpoint_all_or_raise {W Module : Type}
    (load_state_dict : Module → dict W → bool → Module * option exn)
    (net : dict Module) (params : dict (dict W)) :
  let loaded key m :=
    match dict_get params key with
    | Some params_key => load_submodel load_state_dict m params_key
    | None => (m, None)
    end in
  ((∃ net', load_checkpoint load_state_dict net params = Return net') ↔
   Forall (λ km, (loaded km.1 km.2).2 = None) net) ∧
  (∀ net', load_checkpoint load_state_dict net params = Return net' →
     net' = (λ km, (km.1, (loaded km.1 km.2).1)) <$> net ∧
     dict_keys net' = dict_keys net ∧
     ∀ i key m, net !! i = Some (key, m) → dict_get params key = None →
                net' !! i = Some (key, m)).
Proof.
  intros loaded.
  assert (∀ net', load_checkpoint load_state_dict net params = Return net' →
            net' = (λ km, (km.1, (loaded km.1 km.2).1)) <$> net) as Hret.
  { induction net as [|[key m] net IH]; intros net' Hrun; simpl in Hrun.
    - by injection Hrun as <-.
    - subst loaded. simpl in *.
      destruct (dict_get params key) as [params_key|].
      + destruct (load_submodel load_state_dict m params_key) as [m' [e|]];
          [done|].
        destruct (load_checkpoint load_state_dict net params) as [rest|e];
          [|done].
        injection Hrun as <-. simpl. by rewrite (IH rest eq_refl).
      + destruct (load_checkpoint load_state_dict net params) as [rest|e];
          [|done].
        injection Hrun as <-. simpl. by rewrite (IH rest eq_refl). }
  split.
  - clear Hret. induction net as [|[key m] net IH]; simpl.
    + split; [constructor | by eexists].
    + rewrite Forall_cons. subst loaded. simpl in *.
      destruct (dict_get params key) as [params_key|].
      * destruct (load_submodel load_state_dict m params_key) as [m' [e|]]; simpl.
        -- split; [by intros [? ?] | by intros [? ?]].
        -- destruct (load_checkpoint load_state_dict net params) as [rest|e]; simpl.
           ++ split; [|by eexists]. intros _. split; [done|].
              apply IH. by eexists.
           ++ split; [by intros [? ?]|]. intros [_ H].
              apply IH in H as [? ?]. done.
      * destruct (load_checkpoint load_state_dict net params) as [rest|e]; simpl.
        -- split; [|by eexists]. intros _. split; [done|]. apply IH. by eexists.
        -- split; [by intros [? ?]|]. intros [_ H]. apply IH in H as [? ?]. done.
  - intros net' Hrun. rewrite (Hret net' Hrun). split_and!; [done | |].
    + unfold dict_keys. rewrite <- list_fmap_compose. done.
    + intros i key m Hi Hnone. rewrite list_lookup_fmap, Hi. simpl.
      subst loaded. simpl. by rewrite Hnone.
Qed.

Lemma load_checkpoint_all_or_raise_witness :
  load_checkpoint Sample.load_by_key
    [("decoder", [("weight", 0)]); ("bert", [("bias", 0)])]
    [("decoder", [("module.weight", 5)])]
  = Return [("decoder", [("weight", 5)]); ("bert", [("bias", 0)])].
Proof.
  destruct (load_checkpoint_all_or_raise Sample.load_by_key
              [("decoder", [("weight", 0)]); ("bert", [("bias", 0)])]
              [("decoder", [("module.weight", 5)])]) as [[_ Hall] Hret].
  destruct Hall as [net' Hrun].
  - repeat constructor.
  - rewrite Hrun. destruct (Hret net' Hrun) as [-> _]. reflexivity.
Defined.

(** ** An upper bound on the durations (lines 292-294) *)

Lemma Qsum_bounded (sg : Q → Q) (row : vec) :
  (∀ x, (0 <= sg x <= 1)%Q) →
  (0 <= Qsum (map sg row) <= inject_Z (Z.of_nat (length row)))%Q.
Proof.
  intros Hsg. induction row as [|x row IH].
  - split; apply Qle_refl.
  - change (Qsum (map sg (x :: row))) with (sg x + Qsum (map sg row))%Q.
    cbn [length]. rewrite Nat2Z.inj_succ, <- Z.add_1_l, inject_Z_plus.
    change (inject_Z 1) with 1%Q. specialize (Hsg x). lra.
Qed.

Lemma round_half_even_le (x : Q) (k : Z) :
  (x <= inject_Z k)%Q → round_half_even x ≤ k.
Proof.
  intros Hx. pose proof (round_half_even_nearest x) as Hn.
  apply Qabs_Qle_condition in Hn as [_ Hn].
  apply Zle_of_Qlt_succ. lra.
Qed.

Lemma Zsum_fmap_le {A : Type} (f g : A → Z) (l : list A) :
  (∀ x, f x ≤ g x) → Zsum (f <$> l) ≤ Zsum (g <$> l).
Proof.
  intros Hfg. induction l as [|x l IH]; [done|].
  rewrite !fmap_cons. specialize (Hfg x). unfold Zsum in *. simpl. lia.
Qed.

(** X13.  If the sigmoid takes its values in [0, 1], a token whose score
    row has [K] entries lasts at least 1 and at most [max(1, K)] frames, so
    the frame count is at most the sum of these bounds over the tokens. *)
Theorem durations_bounded_by_score_width (sg : Q → Q) (duration : mat) :
  (∀ x, (0 <= sg x <= 1)%Q) →
  Forall2 (λ (row : vec) d,
             1 ≤ py_int d ≤ Z.max 1 (Z.of_nat (length row)))
          duration (tensor_elems (predict_durations sg duration)) ∧
  py_int (tensor_sum (predict_durations sg duration))
    ≤ Zsum ((λ row : vec, Z.max 1 (Z.of_nat (length row))) <$> duration).
Proof.
  intros Hsg.
  assert (∀ row : vec,
            1 ≤ Z.max 1 (round_half_even (Qsum (map sg row)))
              ≤ Z.max 1 (Z.of_nat (length row))) as Hrow.
  { intros row. pose proof (Qsum_bounded sg row Hsg) as [_ Hs].
    pose proof (round_half_even_le _ _ Hs). lia. }
  rewrite predict_durations_elems. split.
  - rewrite <- list_fmap_compose. apply Forall2_fmap_r, Forall2_same_length_lookup.
    split; [done|]. intros i row row' Hr Hr'. rewrite Hr in Hr'.
    injection Hr' as <-. simpl. rewrite py_int_inject_Z. apply Hrow.
  - unfold tensor_sum. rewrite predict_durations_elems, Qsum_inject_Z.
    rewrite py_int_inject_Z. apply Zsum_fmap_le. intros row. apply Hrow.
Qed.

Lemma durations_bounded_by_score_width_witness :
  py_int (tensor_sum (predict_durations (λ _, 1 # 2) [[0; 0; 0]; [1]; []]%Q))
    ≤ 3 + 1 + 1.
Proof.
  destruct (durations_bounded_by_score_width (λ _, 1 # 2) [[0; 0; 0]; [1]; []]%Q)
    as [_ H].
  - intros _. split; discriminate.
  - exact H.
Defined.

(** ** [inference] adds no failure of its own (lines 258-324) *)





